(** * The uniter's resolver loop: [Loop] and [updateCharmDir]

    A shallow embedding of the resolver package's [Loop] and
    [updateCharmDir] (their text follows the provisioner manifold in
    worker/caasunitprovisioner/manifold.go).  The main goroutine is
    written as a program in a small writer/state/early-return monad over
    an abstract world [W] that stands for everything the loop talks to
    (resolver, watcher, executor, guard, idle callback, logger, Go
    runtime).  Every call into the world leaves one event in a trace; the
    theorems on [Loop] are statements about all traces of all worlds.
    The forwarding goroutines and the [fire] channel are a transition
    system of their own, in which the goroutines' steps interleave. *)

From Stdlib Require Import String List Bool Arith Lia.
Import ListNotations.
Local Open Scope string_scope.
Local Open Scope list_scope.

Set Implicit Arguments.

(** ** Packages the loop imports *)

Module hooks.
(** [type Kind string] of the charm hooks package. *)
Definition Kind := string.
Definition UpgradeCharm : Kind := "upgrade-charm".
Definition ConfigChanged : Kind := "config-changed".
Definition eqb (a b : Kind) : bool := String.eqb a b.
End hooks.

Module hook.
(** [hook.Info]; [updateCharmDir] reads its [Kind] only. *)
Record Info := { Kind : hooks.Kind; RelationId : nat }.
End hook.

Module operation.
(** Modelled from the spec: the declaration of [operation.Kind] is not
    among the sources; section 3 lists its values as
    None, Install, Upgrade, RunHook, RunAction, Continue. *)
Inductive Kind := NoKind | Install | Upgrade | RunHook | RunAction | Continue.

Definition Kind_eqb (a b : Kind) : bool :=
  match a, b with
  | NoKind, NoKind | Install, Install | Upgrade, Upgrade
  | RunHook, RunHook | RunAction, RunAction | Continue, Continue => true
  | _, _ => false
  end.

(** Modelled from the spec: [Step] is the lifecycle position
    (queued / pending / done). *)
Inductive Step := Queued | Pending | Done.

(** Modelled from the spec: the declaration of [operation.State] is not
    among the sources; these are the fields section 3 gives it.  [Hook]
    is a pointer in the code, hence an option here. *)
Module State.
Record t := {
  Kind : Kind;
  Step : Step;
  Hook : option hook.Info;
  Started : bool;
  Stopped : bool
}.
End State.
End operation.

Module errors.
(** Go [error] values as the loop sees them.  The four sentinels are
    package-level values made once with [errors.New] and compared by
    identity, so each is a constructor of its own; [Other] stands for
    every other root error; [Err] is the juju errors wrapper
    ([*errors.Err]) with its [cause] and [previous] fields.  A Go
    variable of type [error] is an [option error]: [None] is nil. *)
#[warnings="-register-all"]
Inductive error :=
| ErrWaiting
| ErrNoOperation
| ErrDoNotProceed
| ErrLoopAborted
| Other (id : nat)
| Err (cause : option error) (previous : error).

(** [errors.Cause]: the [cause] field of a wrapper when it is set, the
    error itself otherwise (one step, not a chain walk). *)
Definition Cause1 (e : error) : error :=
  match e with
  | Err (Some c) _ => c
  | _ => e
  end.

Definition Cause (err : option error) : option error :=
  match err with
  | None => None
  | Some e => Some (Cause1 e)
  end.

(** [errors.Trace]: nil stays nil, anything else is wrapped with the
    same cause. *)
Definition Trace (other : option error) : option error :=
  match other with
  | None => None
  | Some e => Some (Err (Some (Cause1 e)) e)
  end.

(** [errors.Mask]: a wrapper that hides the cause. *)
Definition Mask (e : error) : error := Err None e.
End errors.
Export errors.

(** ** Events and the program monad *)

(** The types the loop is generic in: the world (the state of everything
    outside the main goroutine); [operation.Operation] (an interface
    value, nil included) and [remotestate.Snapshot], both opaque to the
    loop; the part of [resolver.LocalState] next to the embedded
    [operation.State], which the loop never reads or writes; the channel
    type of [cfg.Abort]; the pair of channels made for one forwarding
    goroutine ([remoteStateChanged], [done]); and [operation.Factory]. *)
Record Types := {
  World : Type;
  Operation : Type;
  Snapshot : Type;
  LocalRest : Type;
  Abort : Type;
  Forwarder : Type;
  Factory : Type
}.

Section Resolver.

Context {T : Types}.

Local Abbreviation W := (World T).
Local Abbreviation Operation := (Operation T).
Local Abbreviation Snapshot := (Snapshot T).
Local Abbreviation LocalRest := (LocalRest T).
Local Abbreviation Abort := (Abort T).
Local Abbreviation Forwarder := (Forwarder T).
Local Abbreviation Factory := (Factory T).

Record LocalState := {
  State : operation.State.t;
  Rest : LocalRest
}.

Definition set_State (l : LocalState) (s : operation.State.t) : LocalState :=
  {| State := s; Rest := Rest l |}.

(** The cases of the blocking select at the bottom of the loop. *)
Inductive SelectCase := CaseAbort | CaseRemoteStateChanged | CaseFire.

(** Which of the three receives can proceed when the select looks. *)
Record Ready := {
  abort_ready : bool;
  changed_ready : bool;
  fire_ready : bool
}.

Definition is_ready (r : Ready) (c : SelectCase) : bool :=
  match c with
  | CaseAbort => abort_ready r
  | CaseRemoteStateChanged => changed_ready r
  | CaseFire => fire_ready r
  end.

(** Go's select: among the communications that can proceed one is
    chosen (by the runtime, pseudo-randomly: [pick] is that choice);
    with none ready the goroutine stays blocked. *)
Definition go_select (r : Ready) (pick : SelectCase) : option SelectCase :=
  if is_ready r pick then Some pick
  else if abort_ready r then Some CaseAbort
  else if changed_ready r then Some CaseRemoteStateChanged
  else if fire_ready r then Some CaseFire
  else None.

(** Arguments of the two [Tracef] calls. *)
Inductive LogLine :=
| LogRunningOp (op : Operation)
| LogCharmdir (available started stopped changing : bool).

(** One event per call the main goroutine makes into the world, with
    the arguments it passed and the result it got back. *)
Inductive Event :=
| EvState (st : operation.State.t)
| EvTracef (l : LogLine)
| EvUnlock (r : option error)
| EvLockdown (a : Abort) (r : option error)
| EvSnapshot (s : Snapshot)
| EvNextOp (l : LocalState) (r : Snapshot) (op : Operation) (err : option error)
| EvGo (f : Forwarder)
| EvRun (op : Operation) (f : Forwarder) (err : option error)
| EvCloseDone (f : Forwarder)
| EvOnIdle (err : option error)
| EvSelect (r : Ready) (chosen : option SelectCase).

(** How a run of [Loop] ends: a Go [return], a select that never
    wakes, or the model's fuel running out. *)
Inductive Outcome :=
| Returned (err : option error)
| Blocked
| OutOfFuel.

Inductive Res (A : Type) :=
| Normal (a : A)
| Stop (o : Outcome).
Arguments Stop {A} o.

(** A program: from a world to the events emitted, the world after,
    and a value or the end of the loop. *)
Definition Prog (A : Type) : Type := W -> list Event * W * Res A.

Definition ret {A} (a : A) : Prog A := fun w => ([], w, Normal a).

Definition bind {A B} (m : Prog A) (f : A -> Prog B) : Prog B :=
  fun w =>
    match m w with
    | (t1, w1, Normal a) =>
        match f a w1 with
        | (t2, w2, r) => (t1 ++ t2, w2, r)
        end
    | (t1, w1, Stop o) => (t1, w1, Stop o)
    end.

(** Go's [return err] out of [Loop]. *)
Definition return_ {A} (err : option error) : Prog A :=
  fun w => ([], w, Stop (Returned err)).

Definition stop {A} (o : Outcome) : Prog A := fun w => ([], w, Stop o).

(** A call into the world that yields a value. *)
Definition call {A} (f : W -> W * A) (ev : A -> Event) : Prog A :=
  fun w => match f w with (w1, a) => ([ev a], w1, Normal a) end.

(** A call into the world for its effect only. *)
Definition call_ (f : W -> W) (ev : Event) : Prog unit :=
  fun w => ([ev], f w, Normal tt).

Notation "x <- m ;; k" := (bind m (fun x => k))
  (at level 61, m at next level, right associativity).
Notation "m ;;; k" := (bind m (fun _ => k))
  (at level 61, right associativity).

(** ** Interfaces of the collaborators *)

(** [fortress.Guard]. *)
Record Guard := {
  Unlock : W -> W * option error;
  Lockdown : Abort -> W -> W * option error
}.

(** The [Logger] interface of the package; a log line changes the
    world (the log) and nothing the loop can see. *)
Record Logger := {
  Tracef : LogLine -> W -> W
}.

(** [remotestate.Watcher]; its [RemoteStateChanged] channel is seen
    through the select. *)
Record Watcher := {
  Watcher_Snapshot : W -> W * Snapshot
}.

(** [operation.Executor].  Operations built through the loop's
    [resolverOpFactory] hold the pointer [localState], so a [Run] can
    change the cell it points to: the cell goes in and comes out. *)
Record Executor := {
  Executor_State : W -> operation.State.t;
  Executor_Run :
    Operation -> Forwarder -> LocalState -> W -> W * (LocalState * option error)
}.

(** [Resolver]: [NextOp(localState, remoteState, opFactory)].  The loop
    passes its [resolverOpFactory], which is [cfg.Factory] together with
    the local state cell and the snapshot, that is, with the first two
    arguments again. *)
Record Resolver := {
  NextOp :
    LocalState -> Snapshot -> Factory -> W -> W * (Operation * option error)
}.

(** What the loop asks of the Go runtime: start the forwarding
    goroutine on two fresh channels, close [done], and the blocking
    select, which reports what was ready when it woke and the
    runtime's choice, and then performs the chosen receive. *)
Record Runtime := {
  go_forward : W -> W * Forwarder;
  close_done : Forwarder -> W -> W;
  select_wait : W -> Ready * SelectCase;
  receive : SelectCase -> W -> W
}.

(** [LoopConfig]. *)
Record LoopConfig := {
  cfg_Resolver : Resolver;
  cfg_Watcher : Watcher;
  cfg_Executor : Executor;
  cfg_Factory : Factory;
  cfg_Abort : Abort;
  cfg_OnIdle : option (W -> W * option error);
  cfg_CharmDirGuard : Guard;
  cfg_Logger : Logger;
  cfg_Runtime : Runtime
}.

(** ** updateCharmDir *)

(** "Determine if the charm content is changing." *)
Definition changing (opState : operation.State.t) : bool :=
  if operation.Kind_eqb (operation.State.Kind opState) operation.Install
     || operation.Kind_eqb (operation.State.Kind opState) operation.Upgrade
  then true
  else if operation.Kind_eqb (operation.State.Kind opState) operation.RunHook
          && match operation.State.Hook opState with
             | Some h => hooks.eqb (hook.Kind h) hooks.UpgradeCharm
             | None => false
             end
  then true
  else false.

Definition available (opState : operation.State.t) : bool :=
  operation.State.Started opState && negb (operation.State.Stopped opState)
  && negb (changing opState).

Definition updateCharmDir (opState : operation.State.t) (guard : Guard)
    (abort : Abort) (logger : Logger) : Prog (option error) :=
  call_ (Tracef logger
           (LogCharmdir (available opState) (operation.State.Started opState)
              (operation.State.Stopped opState) (changing opState)))
        (EvTracef
           (LogCharmdir (available opState) (operation.State.Started opState)
              (operation.State.Stopped opState) (changing opState))) ;;;
  if available opState
  then call (Unlock guard) EvUnlock
  else call (Lockdown guard abort) (EvLockdown abort).

(** ** Loop *)

Section Loop.
Variable cfg : LoopConfig.

Definition snapshot : Prog Snapshot :=
  call (Watcher_Snapshot (cfg_Watcher cfg)) EvSnapshot.

Definition executorState : Prog operation.State.t :=
  call (fun w => (w, Executor_State (cfg_Executor cfg) w)) EvState.

Definition nextOp (l : LocalState) (r : Snapshot)
    : Prog (Operation * option error) :=
  call (NextOp (cfg_Resolver cfg) l r (cfg_Factory cfg))
       (fun res => EvNextOp l r (fst res) (snd res)).

(** The inner loop, [for err == nil { ... }], entered with the
    decision [(op, err)] just made on the cell [ls]; it leaves with
    the cell and the error that ended it. *)
Fixpoint innerLoop (fuel : nat) (ls : LocalState) (op : Operation)
    (err : option error) : Prog (LocalState * option error) :=
  match err with
  | Some _ => ret (ls, err)
  | None =>
      match fuel with
      | O => stop OutOfFuel
      | S fuel' =>
          f <- call (go_forward (cfg_Runtime cfg)) EvGo ;;
          call_ (Tracef (cfg_Logger cfg) (LogRunningOp op))
                (EvTracef (LogRunningOp op)) ;;;
          res <- call (Executor_Run (cfg_Executor cfg) op f ls)
                      (fun res => EvRun op f (snd res)) ;;
          match snd res with
          | Some _ =>
              call_ (close_done (cfg_Runtime cfg) f) (EvCloseDone f) ;;;
              return_ (Trace (snd res))
          | None =>
              call_ (close_done (cfg_Runtime cfg) f) (EvCloseDone f) ;;;
              remote <- snapshot ;;
              st <- executorState ;;
              let ls' := set_State (fst res) st in
              gerr <- updateCharmDir (State ls') (cfg_CharmDirGuard cfg)
                        (cfg_Abort cfg) (cfg_Logger cfg) ;;
              match gerr with
              | Some _ => return_ (Trace gerr)
              | None =>
                  d <- nextOp ls' remote ;;
                  innerLoop fuel' ls' (fst d) (snd d)
              end
          end
      end
  end.

(** [switch errors.Cause(err) { ... }] *)
Definition afterInner (err : option error) : Prog unit :=
  match Cause err with
  | None => ret tt
  | Some ErrWaiting => ret tt
  | Some ErrNoOperation =>
      match cfg_OnIdle cfg with
      | Some onIdle =>
          ierr <- call onIdle EvOnIdle ;;
          match ierr with
          | Some _ => return_ (Trace ierr)
          | None => ret tt
          end
      | None => ret tt
      end
  | Some _ => return_ err
  end.

(** The select on [cfg.Abort], the watcher's change channel and
    [fire]; the chosen receive is performed. *)
Definition select : Prog (option SelectCase) :=
  fun w =>
    let (r, pick) := select_wait (cfg_Runtime cfg) w in
    let c := go_select r pick in
    ([EvSelect r c],
     match c with
     | Some c' => receive (cfg_Runtime cfg) c' w
     | None => w
     end,
     Normal c).

(** The outer [for { ... }]. *)
Fixpoint outerLoop (fuel : nat) (ls : LocalState) : Prog Empty_set :=
  match fuel with
  | O => stop OutOfFuel
  | S fuel' =>
      remote <- snapshot ;;
      st <- executorState ;;
      let ls1 := set_State ls st in
      d <- nextOp ls1 remote ;;
      x <- innerLoop fuel' ls1 (fst d) (snd d) ;;
      afterInner (snd x) ;;;
      c <- select ;;
      match c with
      | None => stop Blocked
      | Some CaseAbort => return_ (Some ErrLoopAborted)
      | Some CaseRemoteStateChanged => outerLoop fuel' (fst x)
      | Some CaseFire => outerLoop fuel' (fst x)
      end
  end.

(** [Loop(cfg, localState)], [localState] being the content of the
    cell the pointer names. *)
Definition LoopProg (fuel : nat) (localState : LocalState) : Prog Empty_set :=
  st <- executorState ;;
  err <- updateCharmDir st (cfg_CharmDirGuard cfg) (cfg_Abort cfg)
           (cfg_Logger cfg) ;;
  match err with
  | Some _ => return_ (Trace err)
  | None => outerLoop fuel localState
  end.

Definition Loop (fuel : nat) (localState : LocalState) (w : W)
    : list Event * Outcome :=
  match LoopProg fuel localState w with
  | (t, _, Stop o) => (t, o)
  | (t, _, Normal x) => match x with end
  end.

(** The event of the one guard call [updateCharmDir] makes. *)
Definition guard_event (st : operation.State.t) (r : option error) : Event :=
  if available st then EvUnlock r else EvLockdown (cfg_Abort cfg) r.

(** ** The control points of [Loop]

    A second view of the same control flow, used to state what a
    trace can look like after one of its events: the points between
    two calls, and the event that leads from one to the next. *)

Inductive Cont :=
| KInit (ls : LocalState)
| KInner (ls : LocalState) (s : Snapshot).

Inductive PC :=
| PStart (ls : LocalState)
| PGuardLog (k : Cont) (st : operation.State.t)
| PGuardCall (k : Cont) (st : operation.State.t)
| PTop (ls : LocalState)
| PTopState (ls : LocalState) (s : Snapshot)
| PNextOp (ls : LocalState) (s : Snapshot)
| PSpawn (ls : LocalState) (op : Operation)
| PLogOp (ls : LocalState) (op : Operation) (f : Forwarder)
| PRun (ls : LocalState) (op : Operation) (f : Forwarder)
| PClose (ls : LocalState) (f : Forwarder) (rerr : option error)
| PRefresh (ls : LocalState)
| PRefreshState (ls : LocalState) (s : Snapshot)
| PIdle (ls : LocalState)
| PSelect (ls : LocalState)
| PDone (o : Outcome).

Definition resume (k : Cont) : PC :=
  match k with
  | KInit ls => PTop ls
  | KInner ls s => PNextOp ls s
  end.

Definition or_fail (r : option error) (pc : PC) : PC :=
  match r with
  | Some _ => PDone (Returned (Trace r))
  | None => pc
  end.

Definition failed (ls : LocalState) (e : error) : PC :=
  match Cause1 e with
  | ErrWaiting => PSelect ls
  | ErrNoOperation =>
      match cfg_OnIdle cfg with
      | Some _ => PIdle ls
      | None => PSelect ls
      end
  | _ => PDone (Returned (Some e))
  end.

Definition decided (ls : LocalState) (op : Operation) (err : option error) : PC :=
  match err with
  | None => PSpawn ls op
  | Some e => failed ls e
  end.

Definition selected (ls : LocalState) (c : option SelectCase) : PC :=
  match c with
  | None => PDone Blocked
  | Some CaseAbort => PDone (Returned (Some ErrLoopAborted))
  | Some _ => PTop ls
  end.

Inductive step : PC -> Event -> PC -> Prop :=
| step_start ls st :
    step (PStart ls) (EvState st) (PGuardLog (KInit ls) st)
| step_guard_log k st :
    step (PGuardLog k st)
         (EvTracef (LogCharmdir (available st) (operation.State.Started st)
                      (operation.State.Stopped st) (changing st)))
         (PGuardCall k st)
| step_unlock k st r :
    available st = true ->
    step (PGuardCall k st) (EvUnlock r) (or_fail r (resume k))
| step_lockdown k st r :
    available st = false ->
    step (PGuardCall k st) (EvLockdown (cfg_Abort cfg) r) (or_fail r (resume k))
| step_top ls s :
    step (PTop ls) (EvSnapshot s) (PTopState ls s)
| step_top_state ls s st :
    step (PTopState ls s) (EvState st) (PNextOp (set_State ls st) s)
| step_next_op ls s op err :
    step (PNextOp ls s) (EvNextOp ls s op err) (decided ls op err)
| step_go ls op f :
    step (PSpawn ls op) (EvGo f) (PLogOp ls op f)
| step_log_op ls op f :
    step (PLogOp ls op f) (EvTracef (LogRunningOp op)) (PRun ls op f)
| step_run ls op f ls' rerr :
    step (PRun ls op f) (EvRun op f rerr) (PClose ls' f rerr)
| step_close ls f rerr :
    step (PClose ls f rerr) (EvCloseDone f) (or_fail rerr (PRefresh ls))
| step_refresh ls s :
    step (PRefresh ls) (EvSnapshot s) (PRefreshState ls s)
| step_refresh_state ls s st :
    step (PRefreshState ls s) (EvState st)
         (PGuardLog (KInner (set_State ls st) s) st)
| step_idle ls r :
    step (PIdle ls) (EvOnIdle r) (or_fail r (PSelect ls))
| step_select ls r pick :
    step (PSelect ls) (EvSelect r (go_select r pick))
         (selected ls (go_select r pick)).

(** Where a trace may end: at a return, at a select that stays
    blocked, or at a loop head when the fuel is spent. *)
Definition final (pc : PC) (o : Outcome) : Prop :=
  match pc with
  | PDone o' => o = o'
  | PTop _ | PSpawn _ _ => o = OutOfFuel
  | _ => False
  end.

Fixpoint accepts (pc : PC) (t : list Event) (o : Outcome) : Prop :=
  match t with
  | [] => final pc o
  | e :: t' => exists pc', step pc e pc' /\ accepts pc' t' o
  end.

End Loop.

End Resolver.

Arguments Stop {A} o.

(** Abort priority as the specification words it: from a select at which
    the abort signal is set, the loop ends with [ErrLoopAborted] and does
    nothing more, whatever else is ready. *)
Definition AbortPriority {T : Types} (cfg : @LoopConfig T) : Prop :=
  forall fuel ls w pre rd c post,
    fst (Loop cfg fuel ls w) = pre ++ EvSelect rd c :: post ->
    abort_ready rd = true ->
    post = [] /\ snd (Loop cfg fuel ls w) = Returned (Some ErrLoopAborted).

(** ** A scripted world

    A concrete world for running the loop: every collaborator answers
    from a script, one entry per call, and falls back on a default when
    its script is used up. *)

Module Script.

Record Env := {
  st : operation.State.t;
  decisions : list (nat * option error);
  runs : list (operation.State.t * option error);
  guards : list (option error);
  idles : list (option error);
  selects : list (Ready * SelectCase);
  version : nat;
  spawned : nat;
  log : nat
}.

(** Operations, snapshots and forwarders are numbers; there is one
    abort channel and nothing next to the operation state. *)
Definition types : Types :=
  {| World := Env; Operation := nat; Snapshot := nat;
     LocalRest := unit; Abort := unit; Forwarder := nat; Factory := unit |}.

Local Abbreviation Operation := nat.
Local Abbreviation Snapshot := nat.
Local Abbreviation Forwarder := nat.
Local Abbreviation LocalState := (@LocalState types).

Definition pop {A} (d : A) (l : list A) : A * list A :=
  match l with
  | [] => (d, [])
  | x :: l' => (x, l')
  end.

Definition nextOp (_ : LocalState) (_ : Snapshot) (_ : unit) (w : Env)
    : Env * (Operation * option error) :=
  let (d, rest) := pop (0, Some ErrNoOperation) (decisions w) in
  ({| st := st w; decisions := rest; runs := runs w; guards := guards w;
      idles := idles w; selects := selects w; version := version w;
      spawned := spawned w; log := log w |}, d).

Definition run (_ : Operation) (_ : Forwarder) (l : LocalState) (w : Env)
    : Env * (LocalState * option error) :=
  let (r, rest) := pop (st w, None) (runs w) in
  ({| st := fst r; decisions := decisions w; runs := rest; guards := guards w;
      idles := idles w; selects := selects w; version := S (version w);
      spawned := spawned w; log := log w |}, (l, snd r)).

Definition guard (w : Env) : Env * option error :=
  let (r, rest) := pop None (guards w) in
  ({| st := st w; decisions := decisions w; runs := runs w; guards := rest;
      idles := idles w; selects := selects w; version := version w;
      spawned := spawned w; log := log w |}, r).

Definition onIdle (w : Env) : Env * option error :=
  let (r, rest) := pop None (idles w) in
  ({| st := st w; decisions := decisions w; runs := runs w; guards := guards w;
      idles := rest; selects := selects w; version := version w;
      spawned := spawned w; log := log w |}, r).

Definition nothing_ready : Ready :=
  {| abort_ready := false; changed_ready := false; fire_ready := false |}.

Definition wait (w : Env) : Ready * SelectCase :=
  fst (pop (nothing_ready, CaseAbort) (selects w)).

Definition recv (_ : SelectCase) (w : Env) : Env :=
  {| st := st w; decisions := decisions w; runs := runs w; guards := guards w;
     idles := idles w; selects := snd (pop (nothing_ready, CaseAbort) (selects w));
     version := version w; spawned := spawned w; log := log w |}.

Definition spawn (w : Env) : Env * Forwarder :=
  ({| st := st w; decisions := decisions w; runs := runs w; guards := guards w;
      idles := idles w; selects := selects w; version := version w;
      spawned := S (spawned w); log := log w |}, spawned w).

Definition tracef (_ : @LogLine types) (w : Env) : Env :=
  {| st := st w; decisions := decisions w; runs := runs w; guards := guards w;
     idles := idles w; selects := selects w; version := version w;
     spawned := spawned w; log := S (log w) |}.

Definition snap (w : Env) : Env * Snapshot := (w, version w).

Definition guard_ (_ : unit) (w : Env) : Env * option error := guard w.

Definition close (_ : Forwarder) (w : Env) : Env := w.

Definition config (idle : bool) : @LoopConfig types :=
  {| cfg_Resolver := @Build_Resolver types nextOp;
     cfg_Watcher := @Build_Watcher types snap;
     cfg_Executor := @Build_Executor types st run;
     cfg_Factory := tt : Factory types;
     cfg_Abort := tt : Abort types;
     cfg_OnIdle := if idle then Some onIdle else None;
     cfg_CharmDirGuard := @Build_Guard types guard guard_;
     cfg_Logger := @Build_Logger types tracef;
     cfg_Runtime := @Build_Runtime types spawn close wait recv |}.

Definition hookState (k : hooks.Kind) : operation.State.t :=
  {| operation.State.Kind := operation.RunHook;
     operation.State.Step := operation.Done;
     operation.State.Hook := Some {| hook.Kind := k; hook.RelationId := 0 |};
     operation.State.Started := true;
     operation.State.Stopped := false |}.

Definition world (s : operation.State.t) (ds : list (Operation * option error))
    (rs : list (operation.State.t * option error)) (gs ids : list (option error))
    (ss : list (Ready * SelectCase)) : Env :=
  {| st := s; decisions := ds; runs := rs; guards := gs; idles := ids;
     selects := ss; version := 0; spawned := 0; log := 0 |}.

Definition local0 : LocalState :=
  @Build_LocalState types (hookState hooks.ConfigChanged) tt.

Definition st0 : operation.State.t := hookState hooks.ConfigChanged.


Definition only_abort : Ready :=
  {| abort_ready := true; changed_ready := false; fire_ready := false |}.

Definition abort_and_change : Ready :=
  {| abort_ready := true; changed_ready := true; fire_ready := false |}.

(** The resolver is waiting; then the loop is aborted. *)
Definition waiting : Env :=
  world st0 [(0, Some ErrWaiting)] [] [] [] [(only_abort, CaseAbort)].

(** The resolver reports a traced [ErrNoOperation]; then the loop is
    aborted. *)
Definition idle_traced : Env :=
  world st0 [(0, Trace (Some ErrNoOperation))] [] [] [] [(only_abort, CaseAbort)].

(** One operation that succeeds, then nothing to do, then abort. *)
Definition one_op : Env :=
  world st0 [(7, None); (0, Some ErrNoOperation)] [(st0, None)] [] []
    [(only_abort, CaseAbort)].

(** One operation that fails. *)
Definition run_fails : Env :=
  world st0 [(7, None)] [(st0, Some (Other 1))] [] [] [].


(** Nothing to do; at the select the abort channel is closed and a
    change notification is waiting, and the runtime takes the
    notification; the resolver then has an operation. *)
Definition race : Env :=
  world st0 [(0, Some ErrNoOperation); (7, None)] [] [] []
    [(abort_and_change, CaseRemoteStateChanged); (abort_and_change, CaseAbort)].

End Script.

(** ** The forwarding goroutines, [fire] and the select

    The main goroutine, the forwarding goroutines it starts (lines
    173-192 of the loop) and the watcher, as one transition system in
    which their steps interleave.  Of the main goroutine only what
    touches the channels and the watcher is kept. *)

Module Forward.

(** Where a forwarding goroutine stands: at its select, between the
    receive from the watcher and the non-blocking send on [fire], or
    returned. *)
Inductive FPC := AtSelect | AtPost | Gone.

(** A forwarding goroutine: its place, whether its local [rs] is the
    channel [remoteStateChanged] (true) or nil (false), and whether
    its [done] channel has been closed. *)
Record Goroutine := { place : FPC; rs : bool; done : bool }.

(** Where the main goroutine stands: before the snapshot at the top
    of the outer loop; before the first [NextOp]; at the head of the
    inner loop with an operation; inside [Executor.Run] with
    forwarder [i]; before the snapshot that follows a run; before the
    [NextOp] that follows it; at the select; returned. *)
Inductive MPC :=
| Top | Decide | Inner | Running (i : nat) | Refresh | Redecide | Select | Exited.

(** What a [NextOp] call and the switch after it come to: an
    operation, an error the loop recovers from ([ErrWaiting], or
    [ErrNoOperation] with the idle callback content), or the end of
    the loop. *)
Inductive Decision := Op | Wait | Fatal.

(** Modelled from the spec: the watcher is not among the sources.
    [Snapshot()] "always returns latest known value", here the
    [version] of the remote state, and the change signal coalesces
    ("multiple changes before consumption collapse to one wakeup"),
    here the flag [changed].

    [fire] is the channel of capacity one (true: it holds a value);
    [remote] is [rf.RemoteState]; [owed] is a ghost: [Some v] when a
    forwarding goroutine has consumed a change notification, the
    remote state being at version [v], and the loop has not since
    taken the snapshot at the top of its outer loop. *)
Record Sys := {
  main : MPC;
  fire : bool;
  goroutines : list Goroutine;
  changed : bool;
  version : nat;
  aborted : bool;
  remote : nat;
  owed : option nat
}.

Inductive Action :=
| EnvChange
| EnvAbort
| MainSnapshot
| MainNextOp (d : Decision)
| MainGuardFails
| MainGo
| MainRunReturns (ok : bool)
| MainSelect (c : SelectCase)
| FwdReceive (i : nat)
| FwdPost (i : nat)
| FwdSend (i : nat)
| FwdDone (i : nat).

Fixpoint update (i : nat) (g : Goroutine) (l : list Goroutine) : list Goroutine :=
  match l, i with
  | [], _ => []
  | _ :: l', O => g :: l'
  | x :: l', S i' => x :: update i' g l'
  end.

Definition posting (g : Goroutine) : bool :=
  match place g with
  | AtPost => true
  | _ => false
  end.

Definition set_main (m : MPC) (s : Sys) : Sys :=
  {| main := m; fire := fire s; goroutines := goroutines s;
     changed := changed s; version := version s; aborted := aborted s;
     remote := remote s; owed := owed s |}.

Definition set_goroutines (l : list Goroutine) (s : Sys) : Sys :=
  {| main := main s; fire := fire s; goroutines := l;
     changed := changed s; version := version s; aborted := aborted s;
     remote := remote s; owed := owed s |}.

Definition after (d : Decision) : MPC :=
  match d with
  | Op => Inner
  | Wait => Select
  | Fatal => Exited
  end.

(** One step of one of the parties; [None] when the party cannot take
    that step in [s]. *)
Definition step (s : Sys) (a : Action) : option Sys :=
  match a with
  | EnvChange =>
      (* the remote state changes and the watcher signals it *)
      Some {| main := main s; fire := fire s; goroutines := goroutines s;
              changed := true; version := S (version s); aborted := aborted s;
              remote := remote s; owed := owed s |}
  | EnvAbort =>
      Some {| main := main s; fire := fire s; goroutines := goroutines s;
              changed := changed s; version := version s; aborted := true;
              remote := remote s; owed := owed s |}
  | MainSnapshot =>
      match main s with
      | Top =>
          (* rf.RemoteState = cfg.Watcher.Snapshot(), top of the loop *)
          Some {| main := Decide; fire := fire s; goroutines := goroutines s;
                  changed := changed s; version := version s;
                  aborted := aborted s; remote := version s; owed := None |}
      | Refresh =>
          (* the same after a run *)
          Some {| main := Redecide; fire := fire s; goroutines := goroutines s;
                  changed := changed s; version := version s;
                  aborted := aborted s; remote := version s; owed := owed s |}
      | _ => None
      end
  | MainNextOp d =>
      match main s with
      | Decide | Redecide => Some (set_main (after d) s)
      | _ => None
      end
  | MainGuardFails =>
      match main s with
      | Redecide => Some (set_main Exited s)
      | _ => None
      end
  | MainGo =>
      match main s with
      | Inner =>
          (* go func() { var rs chan remotestate.Snapshot; for { ... } }() *)
          Some {| main := Running (length (goroutines s)); fire := fire s;
                  goroutines :=
                    goroutines s ++ [{| place := AtSelect; rs := false; done := false |}];
                  changed := changed s; version := version s;
                  aborted := aborted s; remote := remote s; owed := owed s |}
      | _ => None
      end
  | MainRunReturns ok =>
      match main s with
      | Running i =>
          match nth_error (goroutines s) i with
          | Some g =>
              (* close(done), then return or go on *)
              Some (set_main (if ok then Refresh else Exited)
                      (set_goroutines
                         (update i {| place := place g; rs := rs g; done := true |}
                            (goroutines s)) s))
          | None => None
          end
      | _ => None
      end
  | MainSelect c =>
      match main s with
      | Select =>
          match c with
          | CaseAbort =>
              if aborted s then Some (set_main Exited s) else None
          | CaseRemoteStateChanged =>
              if changed s
              then Some {| main := Top; fire := fire s; goroutines := goroutines s;
                           changed := false; version := version s;
                           aborted := aborted s; remote := remote s;
                           owed := owed s |}
              else None
          | CaseFire =>
              if fire s
              then Some {| main := Top; fire := false; goroutines := goroutines s;
                           changed := changed s; version := version s;
                           aborted := aborted s; remote := remote s;
                           owed := owed s |}
              else None
          end
      | _ => None
      end
  | FwdReceive i =>
      (* case <-cfg.Watcher.RemoteStateChanged(): *)
      match nth_error (goroutines s) i with
      | Some g =>
          match place g with
          | AtSelect =>
              if changed s
              then Some {| main := main s; fire := fire s;
                           goroutines :=
                             update i {| place := AtPost; rs := rs g; done := done g |}
                               (goroutines s);
                           changed := false; version := version s;
                           aborted := aborted s; remote := remote s;
                           owed := Some (version s) |}
              else None
          | _ => None
          end
      | None => None
      end
  | FwdPost i =>
      (* select { case fire <- struct{}{}: default: }; rs = remoteStateChanged *)
      match nth_error (goroutines s) i with
      | Some g =>
          match place g with
          | AtPost =>
              Some {| main := main s; fire := true;
                      goroutines :=
                        update i {| place := AtSelect; rs := true; done := done g |}
                          (goroutines s);
                      changed := changed s; version := version s;
                      aborted := aborted s; remote := remote s; owed := owed s |}
          | _ => None
          end
      | None => None
      end
  | FwdSend i =>
      (* case rs <- cfg.Watcher.Snapshot(): rs = nil *)
      match nth_error (goroutines s) i with
      | Some g =>
          match place g with
          | AtSelect =>
              if rs g
              then Some (set_goroutines
                           (update i {| place := AtSelect; rs := false; done := done g |}
                              (goroutines s)) s)
              else None
          | _ => None
          end
      | None => None
      end
  | FwdDone i =>
      (* case <-done: return *)
      match nth_error (goroutines s) i with
      | Some g =>
          match place g with
          | AtSelect =>
              if done g
              then Some (set_goroutines
                           (update i {| place := Gone; rs := rs g; done := done g |}
                              (goroutines s)) s)
              else None
          | _ => None
          end
      | None => None
      end
  end.

Fixpoint run (s : Sys) (acts : list Action) : option Sys :=
  match acts with
  | [] => Some s
  | a :: acts' =>
      match step s a with
      | Some s' => run s' acts'
      | None => None
      end
  end.

(** What holds of every state the system can reach: a consumed
    notification that the loop still owes a snapshot was consumed at a
    version no later than the present one, and, unless the loop is at
    the top of its outer loop or has returned, the wakeup is in [fire]
    or a goroutine is about to post it. *)
Definition wakeup_kept (s : Sys) : Prop :=
  forall v, owed s = Some v ->
    v <= version s
    /\ (main s = Top \/ main s = Exited \/ fire s = true
        \/ existsb posting (goroutines s) = true).

(** Only the forwarding goroutine of the operation being run has its
    [done] channel still open. *)
Definition done_closed (s : Sys) : Prop :=
  forall i g,
    nth_error (goroutines s) i = Some g -> done g = false -> main s = Running i.

(** The steps in which goroutine [i], in place [p], returns once its
    [done] is closed. *)
Definition way_out (i : nat) (p : FPC) : list Action :=
  match p with
  | AtPost => [FwdPost i; FwdDone i]
  | AtSelect => [FwdDone i]
  | Gone => []
  end.

(** The loop has passed the first guard update and stands at the top
    of its outer loop; [fire] was just made. *)
Definition init (v : nat) (c : bool) : Sys :=
  {| main := Top; fire := false; goroutines := []; changed := c;
     version := v; aborted := false; remote := 0; owed := None |}.

(** An operation is decided and started; while it runs the remote
    state changes and the forwarding goroutine takes the notification
    and posts the wakeup; the run ends well, and the resolver then
    has nothing to do: the loop is at its select. *)
Definition scenario : list Action :=
  [MainSnapshot; MainNextOp Op; MainGo; EnvChange; FwdReceive 0; FwdPost 0;
   MainRunReturns true; MainSnapshot; MainNextOp Wait].

End Forward.

(** ** Paths through the control points

    [path cfg pc t pc'] : the events [t] lead from [pc] to [pc']. *)

Fixpoint path {T : Types} (cfg : @LoopConfig T) (pc : PC) (t : list Event)
    (pc' : PC) : Prop :=
  match t with
  | [] => pc' = pc
  | e :: t' => exists pc1, step cfg pc e pc1 /\ path cfg pc1 t' pc'
  end.

(** ** The provisioner manifold and the broker constructors *)

Module juju_errors.

(** Go errors as [Validate], [start], [New] and [Open] meet them: a
    root made by [errors.NotValidf] (a [*notValid], with its message),
    any other root error, and the wrapper [*errors.Err] with its
    [cause] and [previous] fields.  [None] is nil. *)
#[warnings="-register-all"]
Inductive error :=
| NotValid (message : string)
| Root (id : nat)
| Err (cause : option error) (previous : error).

Definition Cause1 (e : error) : error :=
  match e with
  | Err (Some c) _ => c
  | _ => e
  end.

Definition Cause (err : option error) : option error :=
  match err with
  | None => None
  | Some e => Some (Cause1 e)
  end.

Definition Trace (other : option error) : option error :=
  match other with
  | None => None
  | Some e => Some (Err (Some (Cause1 e)) e)
  end.

(** [errors.NotValidf(format)]: the message is the format followed by
    " not valid". *)
Definition NotValidf (format : string) : error :=
  NotValid (format ++ " not valid").

(** [errors.IsNotValid]: the cause is a [*notValid]. *)
Definition IsNotValid (err : option error) : bool :=
  match Cause err with
  | Some (NotValid _) => true
  | _ => false
  end.

(** What a call that fills an out parameter or returns a value with an
    error comes to: the value, or a non-nil error. *)
Inductive Got (A : Type) :=
| Found (a : A)
| Failed (e : error).
Arguments Failed {A} e.

End juju_errors.

Module caasunitprovisioner.
Import juju_errors.

Section Manifold.

(** The world, and the interface types the manifold passes around. *)
Variables W APICaller Broker Client Worker : Type.

(** The fields of the worker's [Config] that [start] sets. *)
Record Config := {
  ApplicationGetter : Client;
  BrokerManagedUnits : bool;
  ServiceBroker : Broker;
  ContainerBroker : Broker;
  ServiceExposer : Broker;
  ContainerSpecGetter : Client;
  LifeGetter : Client;
  UnitGetter : Client
}.

(** [ManifoldConfig]; a function field is nil ([None]) or a function. *)
Record ManifoldConfig := {
  APICallerName : string;
  BrokerName : string;
  NewClient : option (APICaller -> W -> W * Client);
  NewWorker : option (Config -> W -> W * (option Worker * option error))
}.

Definition Validate (config : ManifoldConfig) : option error :=
  if String.eqb (APICallerName config) "" then
    Some (NotValidf "empty APICallerName")
  else if String.eqb (BrokerName config) "" then
    Some (NotValidf "empty BrokerName")
  else match NewClient config with
       | None => Some (NotValidf "nil NewClient")
       | Some _ =>
           match NewWorker config with
           | None => Some (NotValidf "nil NewWorker")
           | Some _ => None
           end
       end.

(** [dependency.Context]: [Get(name, out)], for the two types of [out]
    that [start] passes. *)
Record Context := {
  Get_APICaller : string -> W -> W * Got APICaller;
  Get_Broker : string -> W -> W * Got Broker
}.

(** The calls [start] makes, with what they were given and gave back. *)
Inductive Call :=
| GotAPICaller (name : string) (r : Got APICaller)
| GotBroker (name : string) (r : Got Broker)
| MadeClient (a : APICaller) (c : Client)
| MadeWorker (c : Config) (w : option Worker) (err : option error).

(** What [start] comes to: its two results, or the panic of a call
    through a nil function. *)
Inductive Started :=
| Return (w : option Worker) (err : option error)
| Panic.

Definition start (config : ManifoldConfig) (context : Context) (w : W)
    : list Call * W * Started :=
  match Validate config with
  | Some err => ([], w, Return None (Trace (Some err)))
  | None =>
      match Get_APICaller context (APICallerName config) w with
      | (w1, Failed err) =>
          ([GotAPICaller (APICallerName config) (Failed err)], w1,
           Return None (Trace (Some err)))
      | (w1, Found apiCaller) =>
          match Get_Broker context (BrokerName config) w1 with
          | (w2, Failed err) =>
              ([GotAPICaller (APICallerName config) (Found apiCaller);
                GotBroker (BrokerName config) (Failed err)], w2,
               Return None (Trace (Some err)))
          | (w2, Found broker) =>
              match NewClient config with
              | None =>
                  ([GotAPICaller (APICallerName config) (Found apiCaller);
                    GotBroker (BrokerName config) (Found broker)], w2, Panic)
              | Some newClient =>
                  let (w3, client) := newClient apiCaller w2 in
                  match NewWorker config with
                  | None =>
                      ([GotAPICaller (APICallerName config) (Found apiCaller);
                        GotBroker (BrokerName config) (Found broker);
                        MadeClient apiCaller client], w3, Panic)
                  | Some newWorker =>
                      let c := {| ApplicationGetter := client;
                                  BrokerManagedUnits := true;
                                  ServiceBroker := broker;
                                  ContainerBroker := broker;
                                  ServiceExposer := broker;
                                  ContainerSpecGetter := client;
                                  LifeGetter := client;
                                  UnitGetter := client |} in
                      let (w4, res) := newWorker c w3 in
                      ([GotAPICaller (APICallerName config) (Found apiCaller);
                        GotBroker (BrokerName config) (Found broker);
                        MadeClient apiCaller client;
                        MadeWorker c (fst res) (snd res)], w4,
                       match snd res with
                       | Some _ => Return None (Trace (snd res))
                       | None => Return (fst res) None
                       end)
                  end
              end
          end
      end
  end.

(** [dependency.Manifold], the two fields [Manifold] sets. *)
Record Manifold_ := {
  Inputs : list string;
  Start : Context -> W -> list Call * W * Started
}.

Definition Manifold (config : ManifoldConfig) : Manifold_ :=
  {| Inputs := [APICallerName config; BrokerName config];
     Start := start config |}.

(** The names asked of the context, in order. *)
Fixpoint gets (calls : list Call) : list string :=
  match calls with
  | [] => []
  | GotAPICaller name _ :: calls' => name :: gets calls'
  | GotBroker name _ :: calls' => name :: gets calls'
  | _ :: calls' => gets calls'
  end.

End Manifold.

(** A context that has an API caller and a broker under the names
    "api-caller" and "broker", a client made of the API caller, and a
    worker constructor that counts the workers it has made. *)
Definition names : string * string := ("api-caller", "broker").

Definition lookup {A} (name : string) (a : A) (asked : string) (w : nat)
    : nat * Got A :=
  if String.eqb asked name then (w, Found a) else (w, Failed (Root 1)).

Definition context0 : Context nat nat nat :=
  {| Get_APICaller := lookup (fst names) 10;
     Get_Broker := lookup (snd names) 20 |}.

Definition config0 : ManifoldConfig nat nat nat nat nat :=
  {| APICallerName := fst names;
     BrokerName := snd names;
     NewClient := Some (fun a w => (w, S a));
     NewWorker := Some (fun _ w => (S w, (Some w, None))) |}.

(** The same with a worker constructor that returns a worker and an
    error at once. *)
Definition config_both : ManifoldConfig nat nat nat nat nat :=
  {| APICallerName := fst names;
     BrokerName := snd names;
     NewClient := Some (fun a w => (w, S a));
     NewWorker := Some (fun _ w => (S w, (Some w, Some (Root 3)))) |}.

Definition config_unnamed : ManifoldConfig nat nat nat nat nat :=
  {| APICallerName := "";
     BrokerName := snd names;
     NewClient := Some (fun a w => (w, S a));
     NewWorker := Some (fun _ w => (S w, (Some w, None))) |}.

End caasunitprovisioner.

Module caas.
Import juju_errors.

Section Broker.

(** The world, [Broker] and [environs.OpenParams]; of the parameters
    only [args.Cloud.Type] is looked at. *)
Variables W Broker OpenParams : Type.
Variable CloudType : OpenParams -> string.

(** An [environs.EnvironProvider] value: one that is also a
    [ContainerEnvironProvider], with its [Open] method, or one that is
    not; [typ] is the name of its dynamic type, what [%T] prints. *)
Inductive EnvironProvider :=
| Container (typ : string)
    (open : OpenParams -> W -> W * (option Broker * option error))
| NotContainer (typ : string).

Definition Open (p : EnvironProvider) (args : OpenParams) (w : W)
    : W * (option Broker * option error) :=
  match p with
  | NotContainer typ =>
      (w, (None, Some (NotValidf ("container environ provider " ++ typ))))
  | Container _ open => open args w
  end.

(** [environs.Provider], the lookup in the global provider registry, is
    not among the sources: it is the parameter [Provider]. *)
Definition New (Provider : string -> Got EnvironProvider)
    (args : OpenParams) (w : W) : W * (option Broker * option error) :=
  match Provider (CloudType args) with
  | Failed err => (w, (None, Trace (Some err)))
  | Found p => Open p args w
  end.

End Broker.

(** A registry with a container provider under "kubernetes", which
    opens a broker numbered after the world, and another provider under
    "ec2". *)
Definition registry (typ : string)
    : Got (EnvironProvider nat nat string) :=
  if String.eqb typ "kubernetes" then
    Found (Container "kubernetes" (fun _ w => (S w, (Some w, None))))
  else if String.eqb typ "ec2" then Found (NotContainer _ _ _ "ec2")
  else Failed (Root 2).

End caas.

(** * Facts *)

Section ResolverFacts.

Context {T : Types}.
Variable cfg : @LoopConfig T.

Lemma updateCharmDir_run (st : operation.State.t) (w : World T) :
  exists w' r,
    updateCharmDir st (cfg_CharmDirGuard cfg) (cfg_Abort cfg) (cfg_Logger cfg) w
    = ([EvTracef (LogCharmdir (available st) (operation.State.Started st)
                    (operation.State.Stopped st) (changing st));
        guard_event cfg st r], w', Normal r).
Proof.
  unfold updateCharmDir, guard_event, bind, call_, call.
  destruct (available st).
  - destruct (Unlock _ _) as [w1 r]. simpl. eauto.
  - destruct (Lockdown _ _ _) as [w1 r]. simpl. eauto.
Qed.

Lemma step_guard (k : Cont) (st : operation.State.t) (r : option error) :
  step cfg (PGuardCall k st) (guard_event cfg st r) (or_fail r (resume k)).
Proof.
  unfold guard_event. destruct (available st) eqn:E; constructor; assumption.
Qed.

(** Every event of an accepted trace is a step of the control flow,
    and what follows it is accepted from where the step leads. *)
Lemma accepts_split (pre : list Event) :
  forall pc ev post o,
    accepts cfg pc (pre ++ ev :: post) o ->
    exists pc1 pc2, step cfg pc1 ev pc2 /\ accepts cfg pc2 post o.
Proof.
  induction pre as [|e pre IH]; simpl; intros pc ev post o H.
  - destruct H as (pc' & Hs & Ha). eauto.
  - destruct H as (pc' & _ & Ha). eauto.
Qed.

Lemma accepts_guard (k : Cont) (st : operation.State.t) (w : World T) :
  forall t w' r t2 o,
    updateCharmDir st (cfg_CharmDirGuard cfg) (cfg_Abort cfg) (cfg_Logger cfg) w
    = (t, w', r) ->
    (forall g, r = Normal g -> accepts cfg (or_fail g (resume k)) t2 o) ->
    accepts cfg (PGuardLog k st) (t ++ t2) o.
Proof.
  intros t w' r t2 o E H.
  destruct (updateCharmDir_run st w) as (w1 & g & E1).
  rewrite E1 in E. inversion E; subst. simpl.
  eexists. split; [constructor|].
  eexists. split; [apply step_guard|]. auto.
Qed.

Lemma bind_inv {A B} (m : Prog A) (k : A -> Prog B) (w : World T) t w' r :
  bind m k w = (t, w', r) ->
  exists t1 w1 r1,
    m w = (t1, w1, r1) /\
    match r1 with
    | Normal a => exists t2, k a w1 = (t2, w', r) /\ t = t1 ++ t2
    | Stop o => t = t1 /\ w' = w1 /\ r = Stop o
    end.
Proof.
  unfold bind. destruct (m w) as [[t1 w1] [a|o1]].
  - destruct (k a w1) as [[t2 w2] r2] eqn:Ek. intros E. inversion E; subst.
    exists t1, w1, (Normal a). split; [reflexivity|]. eauto.
  - intros E. inversion E; subst. exists t, w', (Stop o1). auto.
Qed.

Lemma bind_call_inv {A B} (f : World T -> World T * A) (ev : A -> Event)
    (k : A -> Prog B) (w : World T) t w' r :
  bind (call f ev) k w = (t, w', r) ->
  exists w1 a t', f w = (w1, a) /\ k a w1 = (t', w', r) /\ t = ev a :: t'.
Proof.
  unfold bind, call. destruct (f w) as [w1 a].
  destruct (k a w1) as [[t2 w2] r2] eqn:Ek. intros E. inversion E; subst.
  exists w1, a, t2. auto.
Qed.

Lemma bind_call__inv {B} (f : World T -> World T) (ev : Event)
    (k : unit -> Prog B) (w : World T) t w' r :
  bind (call_ f ev) k w = (t, w', r) ->
  exists t', k tt (f w) = (t', w', r) /\ t = ev :: t'.
Proof.
  unfold bind, call_.
  destruct (k tt (f w)) as [[t2 w2] r2]. intros E. inversion E; subst. eauto.
Qed.

Ltac inv_call E :=
  first
    [ apply bind_call_inv in E;
      let w1 := fresh "w" in
      let a := fresh "a" in
      let t' := fresh "t" in
      destruct E as (w1 & a & t' & _ & E & ?)
    | apply bind_call__inv in E;
      let t' := fresh "t" in
      destruct E as (t' & E & ?) ];
  subst; simpl.

Ltac next_call E := inv_call E; eexists; split; [econstructor|].

(** The inner loop follows the control flow from the decision it was
    entered with to the error that ends it. *)
Lemma innerLoop_accepts (fuel : nat) :
  forall ls op err w t w' r t2 o,
    innerLoop cfg fuel ls op err w = (t, w', r) ->
    match r with
    | Normal x => exists e, snd x = Some e /\ accepts cfg (failed cfg (fst x) e) t2 o
    | Stop o' => t2 = [] /\ o = o'
    end ->
    accepts cfg (decided cfg ls op err) (t ++ t2) o.
Proof.
  induction fuel as [|fuel IH]; intros ls op err w t w' r t2 o E H.
  - destruct err as [e|]; simpl in E; inversion E; subst; simpl in *.
    + destruct H as (e' & E' & H). inversion E'; subst. exact H.
    + destruct H as [-> ->]. simpl. reflexivity.
  - destruct err as [e|]; simpl in E.
    + inversion E; subst; simpl in *.
      destruct H as (e' & E' & H). inversion E'; subst. exact H.
    + next_call E. next_call E. inv_call E.
      destruct a0 as [ls1 re]. exists (PClose ls1 a re). split; [constructor|].
      destruct re as [re|]; simpl in E.
      * next_call E. inversion E; subst. simpl in H. destruct H as [-> ->].
        simpl. reflexivity.
      * next_call E. unfold snapshot, executorState, nextOp in E.
        next_call E. next_call E.
        apply bind_inv in E. destruct E as (tg & wg & rg & Eg & E).
        simpl in Eg.
        destruct rg as [g|o1].
        -- destruct E as (t3 & E & ->). rewrite <- app_assoc.
           eapply (accepts_guard (KInner _ _)); [exact Eg|].
           intros g' Eg'. inversion Eg'; subst g'. clear Eg'.
           destruct g as [ge|]; simpl.
           ++ inversion E; subst. simpl in H. destruct H as [-> ->].
              simpl. reflexivity.
           ++ next_call E. destruct a2 as [op' err']. simpl in *.
              eapply IH; eauto.
        -- destruct (updateCharmDir_run a1 w3) as (w4 & g & Eg').
           rewrite Eg' in Eg. discriminate.
Qed.

Lemma afterInner_accepts (ls : LocalState) (e : error) (w : World T) :
  forall t w' r t2 o,
    afterInner cfg (Some e) w = (t, w', r) ->
    match r with
    | Normal _ => accepts cfg (PSelect ls) t2 o
    | Stop o' => t2 = [] /\ o = o'
    end ->
    accepts cfg (failed cfg ls e) (t ++ t2) o.
Proof.
  intros t w' r t2 o E H. unfold afterInner in E. unfold failed.
  simpl in E.
  destruct (Cause1 e);
    try (inversion E; subst; simpl in *; try exact H;
         destruct H as [-> ->]; reflexivity).
  destruct (cfg_OnIdle cfg) as [onIdle|].
  - next_call E. destruct a as [ie|]; simpl; inversion E; subst; simpl in *.
    + destruct H as [-> ->]. reflexivity.
    + exact H.
  - inversion E; subst. exact H.
Qed.

Lemma bind_select_inv {B} (k : option SelectCase -> Prog B) (w : World T) t w' r :
  bind (select cfg) k w = (t, w', r) ->
  exists rd pick w1 t',
    k (go_select rd pick) w1 = (t', w', r)
    /\ t = EvSelect rd (go_select rd pick) :: t'.
Proof.
  unfold bind, select. destruct (select_wait _ w) as [rd pick].
  match goal with |- context [k ?c ?w1] =>
    destruct (k c w1) as [[t2 w2] r2] eqn:Ek end.
  intros E. inversion E; subst. eauto 6.
Qed.

(** The inner loop is left with a non-nil error only. *)
Lemma innerLoop_exit (fuel : nat) :
  forall ls op err w t w' x,
    innerLoop cfg fuel ls op err w = (t, w', Normal x) ->
    exists e, snd x = Some e.
Proof.
  induction fuel as [|fuel IH]; intros ls op err w t w' x E;
    (destruct err as [e|]; simpl in E; [inversion E; subst; simpl; eauto|]).
  - discriminate.
  - inv_call E. inv_call E. inv_call E.
    destruct a0 as [ls1 [re|]]; simpl in E; inv_call E.
    + discriminate.
    + unfold snapshot, executorState, nextOp in E.
      inv_call E. inv_call E.
      apply bind_inv in E. destruct E as (tg & wg & rg & Eg & E).
      destruct rg as [g|o1]; [|destruct E as (_ & _ & ?); discriminate].
      destruct E as (t3 & E & _).
      destruct g as [ge|]; [discriminate|].
      inv_call E. eauto.
Qed.

Lemma outerLoop_accepts (fuel : nat) :
  forall ls w t w' o,
    outerLoop cfg fuel ls w = (t, w', Stop o) ->
    accepts cfg (PTop ls) t o.
Proof.
  induction fuel as [|fuel IH]; intros ls w t w' o E; simpl in E.
  - inversion E; subst. reflexivity.
  - unfold snapshot, executorState, nextOp in E.
    next_call E. next_call E. next_call E.
    destruct a1 as [op err]. simpl in E |- *.
    apply bind_inv in E. destruct E as (ti & wi & ri & Ei & E).
    destruct ri as [x|oi].
    + destruct E as (t3 & E & ->).
      eapply innerLoop_accepts; [exact Ei|]. simpl.
      destruct (innerLoop_exit _ _ _ _ _ Ei) as (e & Ee).
      exists e. split; [exact Ee|]. rewrite Ee in E.
      apply bind_inv in E. destruct E as (ta & wa & ra & Ea & E).
      destruct ra as [[]|oa].
      * destruct E as (t4 & E & ->).
        eapply afterInner_accepts; [exact Ea|]. simpl.
        apply bind_select_inv in E.
        destruct E as (rd & pick & ws & t5 & E & ->). simpl.
        eexists. split; [constructor|].
        destruct (go_select rd pick) as [[| |]|]; simpl;
          try (inversion E; subst; reflexivity); eapply IH; exact E.
      * destruct E as (-> & -> & E). inversion E; subst.
        rewrite <- (app_nil_r ta).
        eapply afterInner_accepts; [exact Ea|]. simpl. auto.
    + destruct E as (-> & -> & E). inversion E; subst.
      rewrite <- (app_nil_r ti).
      eapply innerLoop_accepts; [exact Ei|]. simpl. auto.
Qed.

(** Every trace of [Loop] follows the control flow from its start. *)
Lemma Loop_accepts (fuel : nat) (ls : LocalState) (w : World T) :
  accepts cfg (PStart ls) (fst (Loop cfg fuel ls w)) (snd (Loop cfg fuel ls w)).
Proof.
  unfold Loop. destruct (LoopProg cfg fuel ls w) as [[t w'] [[]|o]] eqn:E.
  simpl. unfold LoopProg, executorState in E.
  next_call E.
  apply bind_inv in E. destruct E as (tg & wg & rg & Eg & E).
  destruct rg as [g|o1].
  - destruct E as (t3 & E & ->).
    eapply (accepts_guard (KInit ls)); [exact Eg|].
    intros g' Eg'. inversion Eg'; subst g'.
    destruct g as [ge|]; simpl.
    + inversion E; subst. reflexivity.
    + eapply outerLoop_accepts; exact E.
  - destruct (updateCharmDir_run a w0) as (w4 & g & Eg').
    rewrite Eg' in Eg. discriminate.
Qed.

Lemma Loop_split (fuel : nat) (ls : LocalState) (w : World T) pre ev post :
  fst (Loop cfg fuel ls w) = pre ++ ev :: post ->
  exists pc1 pc2,
    step cfg pc1 ev pc2 /\ accepts cfg pc2 post (snd (Loop cfg fuel ls w)).
Proof.
  intros E. eapply accepts_split. rewrite <- E. apply Loop_accepts.
Qed.

(** What an accepted trace looks like from the point after a guard
    call, an idle callback or a select. *)
Ltac accepts_inv H :=
  match type of H with
  | accepts _ _ ?t _ =>
      let ev := fresh "ev" in
      let post := fresh "post" in
      let pc' := fresh "pc" in
      let Hs := fresh "Hs" in
      destruct t as [|ev post]; simpl in H; [contradiction|];
      destruct H as (pc' & Hs & H); inversion Hs; subst; clear Hs
  end.

Lemma accepts_done (o o' : Outcome) (t : list Event) :
  accepts cfg (PDone o') t o -> t = [] /\ o = o'.
Proof.
  destruct t as [|ev t]; simpl.
  - auto.
  - intros (pc' & Hs & _). inversion Hs.
Qed.

Lemma accepts_select (ls : LocalState) (t : list Event) (o : Outcome) :
  accepts cfg (PSelect ls) t o ->
  exists rd c post, t = EvSelect rd c :: post.
Proof.
  intros H. accepts_inv H. eauto.
Qed.


Lemma accepts_returned (t : list Event) :
  forall pc e,
    accepts cfg pc t (Returned e) ->
    (forall e', pc = PDone (Returned e') -> e' <> None) ->
    e <> None.
Proof.
  induction t as [|ev t IH]; simpl; intros pc e H Hpc.
  - destruct pc; simpl in H; try contradiction; try discriminate.
    apply Hpc. congruence.
  - destruct H as (pc' & Hs & H). apply (IH _ _ H).
    intros e' ->.
    inversion Hs; subst;
      repeat match goal with
        | H : or_fail ?r _ = PDone _ |- _ => destruct r; simpl in H
        | H : resume ?k = PDone _ |- _ => destruct k; simpl in H
        | H : decided _ _ _ ?r = PDone _ |- _ => destruct r; simpl in H
        | H : failed _ _ ?e = PDone _ |- _ =>
            unfold failed in H; destruct (Cause1 e); try destruct (cfg_OnIdle cfg)
        | H : selected _ ?c = PDone _ |- _ => destruct c as [[| |]|]; simpl in H
        end;
      try discriminate;
      match goal with H : PDone _ = PDone _ |- _ => inversion H end;
      discriminate.
Qed.

(** ** The guard update *)

(** C1. For every operation state, [updateCharmDir] computes
    [changing] as (Kind is Install or Upgrade) or (Kind is RunHook and
    the recorded hook is upgrade-charm), [available] as
    Started && !Stopped && !changing, logs, and then makes exactly one
    guard call: [Unlock] when available, [Lockdown] with the abort
    channel it was given otherwise.  In particular Install locks down
    whatever Started and Stopped are, and RunHook with another hook,
    started and not stopped, unlocks. *)
Theorem updateCharmDir_guard_derivation
    (st : operation.State.t) (guard : Guard) (abort : Abort T)
    (logger : Logger) (w : World T) :
  let line := LogCharmdir (available st) (operation.State.Started st)
                (operation.State.Stopped st) (changing st) in
  (changing st = true <->
     operation.State.Kind st = operation.Install
     \/ operation.State.Kind st = operation.Upgrade
     \/ (operation.State.Kind st = operation.RunHook
         /\ exists h, operation.State.Hook st = Some h
                      /\ hook.Kind h = hooks.UpgradeCharm))
  /\ available st
     = (operation.State.Started st && negb (operation.State.Stopped st)
        && negb (changing st))
  /\ (available st = true ->
      updateCharmDir st guard abort logger w
      = ([EvTracef line; EvUnlock (snd (Unlock guard (Tracef logger line w)))],
         fst (Unlock guard (Tracef logger line w)),
         Normal (snd (Unlock guard (Tracef logger line w)))))
  /\ (available st = false ->
      updateCharmDir st guard abort logger w
      = ([EvTracef line;
          EvLockdown abort (snd (Lockdown guard abort (Tracef logger line w)))],
         fst (Lockdown guard abort (Tracef logger line w)),
         Normal (snd (Lockdown guard abort (Tracef logger line w)))))
  /\ (operation.State.Kind st = operation.Install -> available st = false)
  /\ (forall h,
        operation.State.Kind st = operation.RunHook ->
        operation.State.Hook st = Some h ->
        hook.Kind h <> hooks.UpgradeCharm ->
        operation.State.Started st = true ->
        operation.State.Stopped st = false ->
        available st = true).
Proof.
  intros line. repeat split.
  - unfold changing.
    destruct (operation.State.Kind st) eqn:K; simpl; try discriminate; auto.
    destruct (operation.State.Hook st) as [h|]; try discriminate.
    intros E. right; right. split; [reflexivity|].
    exists h. split; [reflexivity|].
    destruct (hooks.eqb (hook.Kind h) hooks.UpgradeCharm) eqn:B; [|discriminate].
    apply String.eqb_eq. exact B.
  - unfold changing. intros [K|[K|(K & h & Hh & E)]]; rewrite K; simpl; auto.
    rewrite Hh, E. reflexivity.
  - intros A. unfold updateCharmDir, bind, call_, call. fold line. rewrite A.
    destruct (Unlock guard (Tracef logger line w)). reflexivity.
  - intros A. unfold updateCharmDir, bind, call_, call. fold line. rewrite A.
    destruct (Lockdown guard abort (Tracef logger line w)). reflexivity.
  - intros K. unfold available, changing. rewrite K. simpl.
    apply andb_false_r.
  - intros h K Hh E S1 S2. unfold available, changing.
    rewrite K, Hh, S1, S2. simpl.
    destruct (hooks.eqb (hook.Kind h) hooks.UpgradeCharm) eqn:B; [|reflexivity].
    apply String.eqb_eq in B. contradiction.
Qed.


(** ** The loop *)


(** C10. The sentinels are recognised through [errors.Cause]: when
    [NextOp] fails with any error whose cause is [ErrWaiting] (a traced
    sentinel, say), the loop goes to its select, and with one whose
    cause is [ErrNoOperation] it takes the idle branch; in neither case
    does the trace end there with the error returned. *)
Theorem Loop_recognises_sentinels_by_cause
    (fuel : nat) (ls : LocalState) (w : World T) pre l s op e post :
  fst (Loop cfg fuel ls w) = pre ++ EvNextOp l s op (Some e) :: post ->
  (Cause (Some e) = Some ErrWaiting ->
   exists rd c post', post = EvSelect rd c :: post')
  /\ (Cause (Some e) = Some ErrNoOperation ->
      match cfg_OnIdle cfg with
      | None => exists rd c post', post = EvSelect rd c :: post'
      | Some _ => exists ierr post', post = EvOnIdle ierr :: post'
      end).
Proof.
  intros E. apply Loop_split in E. destruct E as (pc1 & pc2 & Hs & H).
  inversion Hs; subst; clear Hs. simpl in H. unfold failed in H.
  split; intros C; inversion C as [C1]; rewrite C1 in H.
  - eapply accepts_select; eauto.
  - destruct (cfg_OnIdle cfg).
    + accepts_inv H. eauto.
    + eapply accepts_select; eauto.
Qed.


(** C5. When [Executor.Run] returns an error the loop closes [done]
    and returns that error (traced) at once: no guard call, no idle
    callback, no further [NextOp] or [Run]. *)
Theorem Loop_returns_Run_error
    (fuel : nat) (ls : LocalState) (w : World T) pre op f e post :
  fst (Loop cfg fuel ls w) = pre ++ EvRun op f (Some e) :: post ->
  post = [EvCloseDone f]
  /\ snd (Loop cfg fuel ls w) = Returned (Trace (Some e))
  /\ Cause (Trace (Some e)) = Cause (Some e).
Proof.
  intros E. apply Loop_split in E. destruct E as (pc1 & pc2 & Hs & H).
  inversion Hs; subst; clear Hs.
  accepts_inv H. simpl in H. apply accepts_done in H. destruct H as [-> ->].
  auto.
Qed.


(** C8. The inner loop is left only with a non-nil error, so the value
    the switch looks at, its cause, is never nil; and whenever [Loop]
    returns, it returns a non-nil error. *)
Theorem Loop_never_returns_nil :
  (forall fuel ls op err w t w' x,
      innerLoop cfg fuel ls op err w = (t, w', Normal x) ->
      snd x <> None /\ Cause (snd x) <> None)
  /\ (forall fuel ls w err,
         snd (Loop cfg fuel ls w) = Returned err -> err <> None).
Proof.
  split.
  - intros fuel ls op err w t w' x E.
    destruct (innerLoop_exit _ _ _ _ _ E) as (e & ->). simpl.
    split; discriminate.
  - intros fuel ls w err E.
    pose proof (Loop_accepts fuel ls w) as H. rewrite E in H.
    apply (accepts_returned _ H). discriminate.
Qed.

(** C3, as the code has it.  A select that takes the abort case ends
    the loop with [ErrLoopAborted] and nothing follows it; the abort
    case is taken only when the abort signal is set, and always when
    nothing else is ready.  (With a change notification or a wakeup
    ready as well, the select may take that instead and the loop goes
    round again.) *)
Theorem Loop_abort_at_select
    (fuel : nat) (ls : LocalState) (w : World T) pre rd c post :
  fst (Loop cfg fuel ls w) = pre ++ EvSelect rd c :: post ->
  (c = Some CaseAbort ->
   abort_ready rd = true /\ post = []
   /\ snd (Loop cfg fuel ls w) = Returned (Some ErrLoopAborted))
  /\ (abort_ready rd = true -> changed_ready rd = false ->
      fire_ready rd = false -> c = Some CaseAbort).
Proof.
  intros E. apply Loop_split in E. destruct E as (pc1 & pc2 & Hs & H).
  inversion Hs; subst; clear Hs. split.
  - intros C. rewrite C in H. simpl in H. apply accepts_done in H.
    split; [|exact H].
    unfold go_select in C. destruct pick; simpl in C;
      destruct (abort_ready rd); trivial;
      destruct (changed_ready rd); try discriminate;
      destruct (fire_ready rd); discriminate.
  - intros A B C. unfold go_select. destruct pick; simpl; rewrite A, ?B, ?C; reflexivity.
Qed.

End ResolverFacts.

(** ** The wakeup through [fire] *)

Section ForwardFacts.

Import Forward.

Lemma existsb_update (i : nat) (g g' : Goroutine) :
  forall l,
    nth_error l i = Some g ->
    (posting g = true -> posting g' = true) ->
    existsb posting l = true ->
    existsb posting (update i g' l) = true.
Proof.
  induction i as [|i IH]; intros [|x l] E Hp H; simpl in *; try discriminate.
  - inversion E; subst x. apply orb_true_iff in H. apply orb_true_iff.
    destruct H; auto.
  - apply orb_true_iff in H. apply orb_true_iff.
    destruct H; eauto.
Qed.

Lemma existsb_update_posting (i : nat) (g g' : Goroutine) :
  forall l,
    nth_error l i = Some g ->
    posting g' = true ->
    existsb posting (update i g' l) = true.
Proof.
  induction i as [|i IH]; intros [|x l] E Hp; simpl in *; try discriminate.
  - rewrite Hp. reflexivity.
  - apply orb_true_iff. eauto.
Qed.

Lemma step_keeps_wakeup (s s' : Sys) (a : Action) :
  wakeup_kept s -> step s a = Some s' -> wakeup_kept s'.
Proof.
  unfold wakeup_kept. intros I E v Ho.
  destruct a; simpl in E;
    repeat match type of E with
      | match ?x with _ => _ end = _ => destruct x eqn:?; try discriminate
      | (if ?x then _ else _) = _ => destruct x eqn:?; try discriminate
      end;
    inversion E; subst; clear E; simpl in *; try discriminate;
    try (destruct (I _ Ho) as (L & D); split; [lia|]);
    try (intuition congruence).
  - destruct D as [D|[D|[D|D]]]; try discriminate; auto.
    right; right; right. rewrite existsb_app, D. reflexivity.
  - destruct D as [D|[D|[D|D]]]; try discriminate; auto.
    right; right; right. eapply existsb_update; eauto.
  - inversion Ho; subst v. split; [lia|].
    right; right; right. eapply existsb_update_posting; eauto.
  - destruct D as [D|[D|[D|D]]]; auto.
    right; right; right. eapply existsb_update; eauto.
    unfold posting. rewrite Heqf. discriminate.
  - destruct D as [D|[D|[D|D]]]; auto.
    right; right; right. eapply existsb_update; eauto.
    unfold posting. rewrite Heqf. discriminate.
Qed.

Lemma run_keeps_wakeup (acts : list Action) :
  forall s s', wakeup_kept s -> run s acts = Some s' -> wakeup_kept s'.
Proof.
  induction acts as [|a acts IH]; simpl; intros s s' I E.
  - inversion E; subst. exact I.
  - destruct (step s a) as [s1|] eqn:Es; [|discriminate].
    eapply IH; [|exact E]. eapply step_keeps_wakeup; eauto.
Qed.

Lemma posting_goroutine (l : list Goroutine) :
  existsb posting l = true ->
  exists i g, nth_error l i = Some g /\ place g = AtPost.
Proof.
  induction l as [|x l IH]; simpl; [discriminate|].
  intros H. apply orb_true_iff in H. destruct H as [H|H].
  - exists 0, x. split; [reflexivity|].
    unfold posting in H. destruct (place x); trivial; discriminate.
  - destruct (IH H) as (i & g & E & P). exists (S i), g. auto.
Qed.

(** C7. In every interleaving of the loop, its forwarding goroutines
    and the watcher: once a goroutine has consumed a change
    notification, and until the loop next takes the snapshot at the
    top of its outer loop, the notification is not lost.  Whenever the
    loop stands at its select the wakeup is in [fire] or a goroutine
    stands right before posting it, and its post leaves [fire] full; a
    full [fire] lets the select proceed to the top of the loop; and
    the snapshot the loop takes there is at least as recent as the
    remote state was when the notification was consumed. *)
Theorem no_change_is_missed
    (v0 : nat) (c0 : bool) (acts : list Action) (s : Sys) (v : nat) :
  run (init v0 c0) acts = Some s ->
  owed s = Some v ->
  (main s = Select ->
   fire s = true
   \/ exists i s', step s (FwdPost i) = Some s'
                   /\ fire s' = true /\ main s' = Select /\ owed s' = Some v)
  /\ (main s = Select -> fire s = true ->
      exists s', step s (MainSelect CaseFire) = Some s'
                 /\ main s' = Top /\ owed s' = Some v)
  /\ (main s = Top ->
      exists s', step s MainSnapshot = Some s'
                 /\ main s' = Decide /\ v <= remote s' /\ owed s' = None).
Proof.
  intros E Ho.
  assert (I : wakeup_kept s).
  { eapply run_keeps_wakeup; [|exact E]. intros v' H. discriminate. }
  destruct (I _ Ho) as (L & D).
  split; [|split].
  - intros M. rewrite M in D.
    destruct D as [D|[D|[D|D]]]; try discriminate; [left; exact D|right].
    destruct (posting_goroutine _ D) as (i & g & Eg & P).
    exists i. simpl. rewrite Eg, P. eexists. split; [reflexivity|].
    simpl. auto.
  - intros M F. simpl. rewrite M, F. eexists. split; [reflexivity|]. simpl. auto.
  - intros M. simpl. rewrite M. eexists. split; [reflexivity|]. simpl. auto.
Qed.

End ForwardFacts.

(** ** The theorems at work on concrete runs *)

(** The select model lets the runtime take any case that is ready, takes
    none that is not, and blocks exactly when nothing is ready. *)
Lemma go_select_any_ready (r : Ready) (c : SelectCase) :
  (is_ready r c = true -> go_select r c = Some c)
  /\ (forall pick, go_select r pick = Some c -> is_ready r c = true)
  /\ (forall pick, go_select r pick = None <->
                   abort_ready r = false /\ changed_ready r = false
                   /\ fire_ready r = false).
Proof.
  unfold go_select. split; [|split].
  - intros ->. reflexivity.
  - intros pick.
    destruct pick, c, r as [[] [] []]; simpl; intros H;
      trivial; discriminate.
  - intros pick.
    destruct pick, r as [[] [] []]; simpl; split; intros H;
      try discriminate H; auto;
      destruct H as (A & B & C); discriminate.
Qed.

(** The two scenarios the specification gives for the guard: a
    config-changed hook, started and not stopped, leaves the charm
    directory available; an upgrade never does. *)
Example available_config_changed :
  changing (Script.hookState hooks.ConfigChanged) = false
  /\ available (Script.hookState hooks.ConfigChanged) = true.
Proof. split; reflexivity. Qed.

Example unavailable_during_upgrade (started stopped : bool) :
  available {| operation.State.Kind := operation.Upgrade;
               operation.State.Step := operation.Pending;
               operation.State.Hook := None;
               operation.State.Started := started;
               operation.State.Stopped := stopped |} = false.
Proof. destruct started, stopped; reflexivity. Qed.



Lemma Loop_recognises_sentinels_by_cause_witness :
  let t := fst (Loop (Script.config true) 3 Script.local0 Script.idle_traced) in
  t = firstn 5 t
        ++ EvNextOp Script.local0 0 0 (Trace (Some ErrNoOperation)) :: skipn 6 t
  /\ exists ierr post', skipn 6 t = EvOnIdle ierr :: post'.
Proof.
  intros t.
  assert (E : t = firstn 5 t
                    ++ EvNextOp Script.local0 0 0 (Trace (Some ErrNoOperation))
                         :: skipn 6 t) by (vm_compute; reflexivity).
  split; [exact E|].
  exact (proj2 (@Loop_recognises_sentinels_by_cause Script.types
                  (Script.config true) 3
                  Script.local0 Script.idle_traced _ _ _ _ _ _ E) eq_refl).
Defined.


Lemma Loop_returns_Run_error_witness :
  let t := fst (Loop (Script.config true) 3 Script.local0 Script.run_fails) in
  t = firstn 8 t ++ @EvRun Script.types 7 0 (Some (Other 1)) :: skipn 9 t
  /\ skipn 9 t = [@EvCloseDone Script.types 0]
  /\ snd (Loop (Script.config true) 3 Script.local0 Script.run_fails)
     = Returned (Trace (Some (Other 1))).
Proof.
  intros t.
  assert (E : t = firstn 8 t ++ @EvRun Script.types 7 0 (Some (Other 1)) :: skipn 9 t)
    by (vm_compute; reflexivity).
  split; [exact E|].
  destruct (@Loop_returns_Run_error Script.types (Script.config true) 3
              Script.local0 Script.run_fails _ _ _ _ _ E) as (H1 & H2 & _).
  split; assumption.
Defined.

Lemma Loop_abort_at_select_witness :
  let t := fst (Loop (Script.config true) 3 Script.local0 Script.waiting) in
  t = firstn 6 t ++ EvSelect Script.only_abort (Some CaseAbort) :: skipn 7 t
  /\ skipn 7 t = []
  /\ snd (Loop (Script.config true) 3 Script.local0 Script.waiting)
     = Returned (Some ErrLoopAborted).
Proof.
  intros t.
  assert (E : t = firstn 6 t ++ EvSelect Script.only_abort (Some CaseAbort)
                               :: skipn 7 t) by (vm_compute; reflexivity).
  split; [exact E|].
  destruct (proj1 (@Loop_abort_at_select Script.types (Script.config true) 3
                     Script.local0 Script.waiting _ _ _ _ E) eq_refl)
    as (_ & H1 & H2).
  split; assumption.
Defined.

(** C3, as the specification words it, fails: with the abort channel
    closed and a change notification waiting, the select may take the
    notification, and the loop then decides and runs an operation. *)
Lemma abort_priority_fails : ~ AbortPriority (Script.config true).
Proof.
  intros H.
  set (t := fst (Loop (Script.config true) 5 Script.local0 Script.race)).
  assert (E : t = firstn 7 t
                    ++ EvSelect Script.abort_and_change (Some CaseRemoteStateChanged)
                         :: skipn 8 t) by (vm_compute; reflexivity).
  destruct (H 5 Script.local0 Script.race _ _ _ _ E eq_refl) as [N _].
  vm_compute in N. discriminate N.
Qed.

(** After that select the trace goes on with an operation being run. *)
Lemma abort_priority_fails_run :
  let t := fst (Loop (Script.config true) 5 Script.local0 Script.race) in
  nth_error t 7 = Some (EvSelect Script.abort_and_change (Some CaseRemoteStateChanged))
  /\ nth_error t 13 = Some (@EvRun Script.types 7 0 None).
Proof. split; vm_compute; reflexivity. Qed.

Lemma no_change_is_missed_witness :
  Forward.run (Forward.init 0 false) Forward.scenario
  = Some {| Forward.main := Forward.Select; Forward.fire := true;
            Forward.goroutines :=
              [{| Forward.place := Forward.AtSelect; Forward.rs := true;
                  Forward.done := true |}];
            Forward.changed := false; Forward.version := 1;
            Forward.aborted := false; Forward.remote := 1;
            Forward.owed := Some 1 |}
  /\ exists s', Forward.run (Forward.init 0 false)
                  (Forward.scenario ++ [Forward.MainSelect CaseFire]) = Some s'
                /\ Forward.main s' = Forward.Top /\ Forward.owed s' = Some 1.
Proof.
  assert (E : Forward.run (Forward.init 0 false) Forward.scenario
              = Some {| Forward.main := Forward.Select; Forward.fire := true;
                        Forward.goroutines :=
                          [{| Forward.place := Forward.AtSelect; Forward.rs := true;
                              Forward.done := true |}];
                        Forward.changed := false; Forward.version := 1;
                        Forward.aborted := false; Forward.remote := 1;
                        Forward.owed := Some 1 |}) by (vm_compute; reflexivity).
  split; [exact E|].
  destruct (proj1 (proj2 (@no_change_is_missed 0 false Forward.scenario _ 1
                            E eq_refl))
              eq_refl eq_refl) as (s' & Es & M & O).
  exists s'. split; [|split; assumption].
  simpl in Es |- *. exact Es.
Defined.

(** * More on the loop: what precedes an event, and how a run ends *)

Section LoopPaths.

Context {T : Types}.
Variable cfg : @LoopConfig T.

Lemma accepts_path_split (pre : list Event) :
  forall pc ev post o,
    accepts cfg pc (pre ++ ev :: post) o ->
    exists pc1 pc2,
      path cfg pc pre pc1 /\ step cfg pc1 ev pc2 /\ accepts cfg pc2 post o.
Proof.
  induction pre as [|e pre IH]; simpl; intros pc ev post o H.
  - destruct H as (pc' & Hs & Ha). exists pc, pc'. auto.
  - destruct H as (pc' & Hs & Ha).
    destruct (IH _ _ _ _ Ha) as (pc1 & pc2 & Hp & Hs' & Ha').
    exists pc1, pc2. split; [|auto]. exists pc'. auto.
Qed.

Lemma path_snoc (t : list Event) :
  forall pc e pc',
    path cfg pc (t ++ [e]) pc' ->
    exists pc1, path cfg pc t pc1 /\ step cfg pc1 e pc'.
Proof.
  induction t as [|x t IH]; simpl; intros pc e pc' H.
  - destruct H as (pc1 & Hs & ->). exists pc. auto.
  - destruct H as (pc1 & Hs & H). destruct (IH _ _ _ H) as (pc2 & Hp & Hs').
    exists pc2. split; [|exact Hs']. exists pc1. auto.
Qed.

Lemma path_last (t : list Event) (pc pc' : PC) :
  path cfg pc t pc' ->
  (t = [] /\ pc' = pc)
  \/ exists t' e pc1, t = t' ++ [e] /\ path cfg pc t' pc1 /\ step cfg pc1 e pc'.
Proof.
  induction t as [|e t' _] using rev_ind; intros H.
  - left. auto.
  - right. apply path_snoc in H. destruct H as (pc1 & Hp & Hs). eauto 6.
Qed.

Lemma accepts_path (t : list Event) :
  forall pc o,
    accepts cfg pc t o -> exists pcf, path cfg pc t pcf /\ final pcf o.
Proof.
  induction t as [|e t IH]; simpl; intros pc o H.
  - exists pc. auto.
  - destruct H as (pc1 & Hs & H). destruct (IH _ _ H) as (pcf & Hp & Hf).
    exists pcf. split; [|exact Hf]. exists pc1. auto.
Qed.

Lemma Loop_path_split (fuel : nat) (ls : LocalState) (w : World T) pre ev post :
  fst (Loop cfg fuel ls w) = pre ++ ev :: post ->
  exists pc1 pc2,
    path cfg (PStart ls) pre pc1 /\ step cfg pc1 ev pc2
    /\ accepts cfg pc2 post (snd (Loop cfg fuel ls w)).
Proof.
  intros E. eapply accepts_path_split. rewrite <- E. apply Loop_accepts.
Qed.

(** Which step can lead to a given control point. *)
Ltac into H :=
  inversion H; subst; clear H;
  repeat match goal with
    | H : or_fail ?r _ = _ |- _ => destruct r; simpl in H
    | H : resume ?k = _ |- _ => destruct k; simpl in H
    | H : decided _ _ _ ?r = _ |- _ => destruct r; simpl in H
    | H : failed _ _ ?e = _ |- _ =>
        unfold failed in H; destruct (Cause1 e) eqn:?;
        try destruct (cfg_OnIdle cfg) eqn:?
    | H : selected _ ?c = _ |- _ => destruct c as [[| |]|] eqn:?; simpl in H
    end;
  try discriminate;
  repeat match goal with
    | H : _ = _ :> PC |- _ => inversion H; subst; clear H
    end.

(** The step before the last event of a path that has left the start. *)
Ltac before Hp :=
  let t' := fresh "pre" in
  let e := fresh "e" in
  let pc0 := fresh "pc" in
  let Hs := fresh "Hs" in
  apply path_last in Hp;
  destruct Hp as [[-> Hp]|(t' & e & pc0 & -> & Hp & Hs)];
  [discriminate Hp | into Hs].

(** X1. An operation is run only when the resolver has just returned
    it: every [Run] in a trace comes right after the [NextOp] that gave
    this operation with a nil error, the start of the forwarding
    goroutine it is run with, and the log line. *)
Theorem Loop_runs_only_decided_operations
    (fuel : nat) (ls : LocalState) (w : World T) pre op f err post :
  fst (Loop cfg fuel ls w) = pre ++ EvRun op f err :: post ->
  exists pre' l s,
    pre = pre' ++ [EvNextOp l s op None; EvGo f; EvTracef (LogRunningOp op)].
Proof.
  intros E. apply Loop_path_split in E. destruct E as (pc1 & pc2 & Hp & Hs & _).
  inversion Hs; subst; clear Hs.
  before Hp. before Hp. before Hp.
  exists pre0, ls0, s. rewrite <- !app_assoc. reflexivity.
Qed.




(** X4. The idle callback is called only when the resolver has just
    reported, by cause, [ErrNoOperation]: never after [ErrWaiting],
    after an operation, or at start-up. *)
Theorem Loop_idle_only_after_no_operation
    (fuel : nat) (ls : LocalState) (w : World T) pre ierr post :
  fst (Loop cfg fuel ls w) = pre ++ EvOnIdle ierr :: post ->
  exists pre' l s op e,
    pre = pre' ++ [EvNextOp l s op (Some e)]
    /\ Cause (Some e) = Some ErrNoOperation.
Proof.
  intros E. apply Loop_path_split in E. destruct E as (pc1 & pc2 & Hp & Hs & _).
  inversion Hs; subst; clear Hs.
  before Hp.
  do 5 eexists. split; [reflexivity|].
  simpl. congruence.
Qed.


(** X6. The loop waits only when the resolver has nothing to run:
    every select comes right after a [NextOp] that failed with (by
    cause) [ErrWaiting], or with [ErrNoOperation] and no idle callback
    configured, or after an idle callback that returned nil. *)
Theorem Loop_waits_only_when_resolver_has_nothing
    (fuel : nat) (ls : LocalState) (w : World T) pre rd c post :
  fst (Loop cfg fuel ls w) = pre ++ EvSelect rd c :: post ->
  (exists pre' l s op e,
      pre = pre' ++ [EvNextOp l s op (Some e)]
      /\ (Cause (Some e) = Some ErrWaiting
          \/ (Cause (Some e) = Some ErrNoOperation /\ cfg_OnIdle cfg = None)))
  \/ (exists pre' l s op e,
         pre = pre' ++ [EvNextOp l s op (Some e); EvOnIdle None]
         /\ Cause (Some e) = Some ErrNoOperation).
Proof.
  intros E. apply Loop_path_split in E. destruct E as (pc1 & pc2 & Hp & Hs & _).
  inversion Hs; subst; clear Hs.
  before Hp;
    first
      [ left; do 5 eexists; (split; [reflexivity|]);
        first [ left; simpl; congruence
              | right; split; [simpl; congruence|reflexivity] ]
      | right; before Hp; rewrite <- !app_assoc; cbn [app];
        do 5 eexists; (split; [reflexivity|]); simpl; congruence ].
Qed.


(** X8. The loop returns for one of five reasons only, and its error
    tells which: a guard call failed (the error traced); a run failed
    (traced, after [done] was closed); the resolver failed with an
    error whose cause is neither [ErrWaiting] nor [ErrNoOperation]
    (returned as it is); the idle callback failed (traced); or the
    select took the abort case ([ErrLoopAborted]). *)
Theorem Loop_return_reasons
    (fuel : nat) (ls : LocalState) (w : World T) (err : option error) :
  snd (Loop cfg fuel ls w) = Returned err ->
  let t := fst (Loop cfg fuel ls w) in
  (exists pre st e,
      t = pre ++ [guard_event cfg st (Some e)] /\ err = Trace (Some e))
  \/ (exists pre op f e,
         t = pre ++ [EvRun op f (Some e); EvCloseDone f] /\ err = Trace (Some e))
  \/ (exists pre l s op e,
         t = pre ++ [EvNextOp l s op (Some e)] /\ err = Some e
         /\ Cause (Some e) <> Some ErrWaiting
         /\ Cause (Some e) <> Some ErrNoOperation)
  \/ (exists pre e, t = pre ++ [EvOnIdle (Some e)] /\ err = Trace (Some e))
  \/ (exists pre rd,
         t = pre ++ [EvSelect rd (Some CaseAbort)] /\ err = Some ErrLoopAborted).
Proof.
  intros E t. subst t.
  pose proof (Loop_accepts cfg fuel ls w) as H. rewrite E in H.
  apply accepts_path in H. destruct H as (pcf & Hp & Hf).
  destruct pcf; simpl in Hf; try contradiction; try discriminate. subst o.
  before Hp;
    first
      [ (* a guard call failed *)
        left; do 3 eexists; unfold guard_event;
        match goal with A : available _ = _ |- _ => rewrite A end;
        split; reflexivity
      | (* the resolver failed *)
        right; right; left; do 5 eexists;
        (split; [reflexivity|]); (split; [reflexivity|]);
        split; simpl; congruence
      | (* a run failed *)
        right; left; before Hp; rewrite <- !app_assoc; cbn [app];
        do 4 eexists; split; reflexivity
      | (* the idle callback failed *)
        right; right; right; left; do 2 eexists; split; reflexivity
      | (* abort *)
        right; right; right; right; do 2 eexists; split; reflexivity ].
Qed.

End LoopPaths.

(** * More on the forwarding goroutines *)

Section ForwardTeardown.

Import Forward.

Lemma update_same (i : nat) (g g' : Goroutine) :
  forall l, nth_error l i = Some g -> nth_error (update i g' l) i = Some g'.
Proof.
  induction i as [|i IH]; intros [|x l] E; simpl in *; try discriminate; auto.
Qed.

Lemma update_other (i j : nat) (g' : Goroutine) :
  forall l, j <> i -> nth_error (update i g' l) j = nth_error l j.
Proof.
  revert j. induction i as [|i IH]; intros [|j] [|x l] N; simpl;
    try reflexivity; try contradiction.
  apply IH. congruence.
Qed.

Lemma update_done (i j : nat) (g g' gj : Goroutine) (l : list Goroutine) :
  nth_error l i = Some g ->
  (done g' = false -> done g = false) ->
  nth_error (update i g' l) j = Some gj ->
  done gj = false ->
  exists gj', nth_error l j = Some gj' /\ done gj' = false.
Proof.
  intros E D Ej F. destruct (Nat.eq_dec j i) as [->|N].
  - erewrite update_same in Ej by exact E. inversion Ej; subst gj. eauto.
  - rewrite update_other in Ej by exact N. eauto.
Qed.

Lemma step_keeps_done_closed (s s' : Sys) (a : Action) :
  done_closed s -> step s a = Some s' -> done_closed s'.
Proof.
  unfold done_closed. intros I E j gj Ej F.
  destruct a; simpl in E;
    repeat match type of E with
      | match ?x with _ => _ end = _ => destruct x eqn:?; try discriminate
      | (if ?x then _ else _) = _ => destruct x eqn:?; try discriminate
      end;
    inversion E; subst; clear E; simpl in *;
    try (specialize (I _ _ Ej F); congruence).
  - (* a goroutine is started *)
    destruct (Nat.lt_ge_cases j (length (goroutines s))) as [L|L].
    + rewrite nth_error_app1 in Ej by exact L.
      specialize (I _ _ Ej F). discriminate.
    + rewrite nth_error_app2 in Ej by exact L.
      destruct (j - length (goroutines s)) as [|k] eqn:K.
      * f_equal. lia.
      * destruct k; discriminate.
  - (* the run returns and done is closed *)
    destruct (Nat.eq_dec j i) as [->|N].
    + erewrite update_same in Ej by eassumption.
      inversion Ej; subst gj. discriminate.
    + rewrite update_other in Ej by exact N.
      specialize (I _ _ Ej F). congruence.
  - eapply update_done in Ej; eauto. destruct Ej as (gj' & Ej & F'). eauto.
  - eapply update_done in Ej; eauto. destruct Ej as (gj' & Ej & F'). eauto.
  - eapply update_done in Ej; eauto. destruct Ej as (gj' & Ej & F'). eauto.
  - eapply update_done in Ej; eauto. destruct Ej as (gj' & Ej & F'). eauto.
Qed.

Lemma run_keeps_done_closed (acts : list Action) :
  forall s s', done_closed s -> run s acts = Some s' -> done_closed s'.
Proof.
  induction acts as [|a acts IH]; simpl; intros s s' I E.
  - inversion E; subst. exact I.
  - destruct (step s a) as [s1|] eqn:Es; [|discriminate].
    eapply IH; [|exact E]. eapply step_keeps_done_closed; eauto.
Qed.

(** X9. No forwarding goroutine is left without its signal to stop: in
    every interleaving, the only goroutine whose [done] channel is
    still open is the one started for the operation being run (so none
    is open when no operation runs), and a goroutine whose [done] is
    closed can always return, in one step of its own from its select
    and in two when it stands before its post. *)
Theorem forwarders_are_told_to_stop
    (v0 : nat) (c0 : bool) (acts : list Action) (s : Sys) (i : nat)
    (g : Goroutine) :
  run (init v0 c0) acts = Some s ->
  nth_error (goroutines s) i = Some g ->
  (done g = false -> main s = Running i)
  /\ (done g = true ->
      exists s' g',
        run s (way_out i (place g)) = Some s'
        /\ nth_error (goroutines s') i = Some g'
        /\ place g' = Gone /\ main s' = main s).
Proof.
  intros E Eg. split.
  - intros F.
    assert (I : done_closed s).
    { eapply run_keeps_done_closed; [|exact E].
      intros j gj Ej. destruct j; discriminate Ej. }
    exact (I _ _ Eg F).
  - intros D. destruct g as [p r d]. simpl in D. subst d.
    destruct p; simpl.
    + rewrite Eg. simpl. do 2 eexists. split; [reflexivity|]. simpl.
      split; [eapply update_same; exact Eg|]. split; reflexivity.
    + rewrite Eg. simpl. erewrite update_same by exact Eg. simpl.
      do 2 eexists. split; [reflexivity|]. simpl.
      split; [eapply update_same; eapply update_same; exact Eg|].
      split; reflexivity.
    + do 2 eexists. split; [reflexivity|]. split; [exact Eg|]. split; reflexivity.
Qed.


End ForwardTeardown.

(** * The provisioner manifold *)

Section ManifoldFacts.

Import juju_errors.
Import caasunitprovisioner.

Variables W APICaller Broker Client Worker : Type.

Local Abbreviation MConfig :=
  (ManifoldConfig W APICaller Broker Client Worker).

Lemma Validate_ok (config : MConfig) :
  Validate config = None ->
  exists newClient newWorker,
    NewClient config = Some newClient /\ NewWorker config = Some newWorker.
Proof.
  unfold Validate.
  destruct (String.eqb (APICallerName config) ""); [discriminate|].
  destruct (String.eqb (BrokerName config) ""); [discriminate|].
  destruct (NewClient config) as [nc|]; [|discriminate].
  destruct (NewWorker config) as [nw|]; [|discriminate].
  eauto.
Qed.

(** X10. [Validate] accepts exactly the configurations in which both
    names are non-empty and both functions are set; whatever it
    rejects, it rejects with an error that [errors.IsNotValid]
    recognises, also once traced. *)
Theorem Validate_accepts_complete_configs (config : MConfig) :
  (Validate config = None <->
     APICallerName config <> "" /\ BrokerName config <> ""
     /\ NewClient config <> None /\ NewWorker config <> None)
  /\ (forall e, Validate config = Some e ->
        IsNotValid (Some e) = true /\ IsNotValid (Trace (Some e)) = true).
Proof.
  unfold Validate. split; [split|].
  - destruct (String.eqb_spec (APICallerName config) ""); [discriminate|].
    destruct (String.eqb_spec (BrokerName config) ""); [discriminate|].
    destruct (NewClient config); [|discriminate].
    destruct (NewWorker config); [|discriminate].
    intros _. repeat split; trivial; discriminate.
  - intros (A & B & C & D).
    destruct (String.eqb_spec (APICallerName config) ""); [contradiction|].
    destruct (String.eqb_spec (BrokerName config) ""); [contradiction|].
    destruct (NewClient config); [|contradiction].
    destruct (NewWorker config); [|contradiction].
    reflexivity.
  - intros e.
    destruct (String.eqb (APICallerName config) "");
      [intros E; inversion E; subst; split; reflexivity|].
    destruct (String.eqb (BrokerName config) "");
      [intros E; inversion E; subst; split; reflexivity|].
    destruct (NewClient config);
      [|intros E; inversion E; subst; split; reflexivity].
    destruct (NewWorker config);
      [discriminate|intros E; inversion E; subst; split; reflexivity].
Qed.


(** X12. [start] asks the context only for what the manifold declares:
    the names it gets, in the order it gets them, are the beginning of
    the manifold's [Inputs], and [start] is the manifold's [Start]. *)
Theorem start_gets_only_inputs (config : MConfig)
    (context : Context W APICaller Broker) (w : W) :
  Start (Manifold config) context w = start config context w
  /\ exists rest,
       Inputs (Manifold config)
       = gets (fst (fst (start config context w))) ++ rest.
Proof.
  split; [reflexivity|].
  unfold start. simpl.
  destruct (Validate config) as [e|]; [simpl; eauto|].
  destruct (Get_APICaller context _ w) as [w1 [a|e]]; [|simpl; eauto].
  destruct (Get_Broker context _ w1) as [w2 [b|e]]; [|exists []; reflexivity].
  destruct (NewClient config) as [nc|]; [|exists []; reflexivity].
  destruct (nc a w2) as [w3 cl].
  destruct (NewWorker config) as [nw|]; [|exists []; reflexivity].
  destruct (nw _ w3) as [w4 res]. exists []. reflexivity.
Qed.

(** X13. When [start] returns without an error it has fetched the API
    caller and the broker under the configured names, made one client
    of the API caller and one worker, and returns that worker; the
    worker's configuration has that one broker as service broker,
    container broker and service exposer, that one client as all four
    getters, and broker-managed units. *)
Theorem start_wires_the_worker (config : MConfig)
    (context : Context W APICaller Broker) (w : W) (wk : option Worker) :
  snd (start config context w) = Return wk None ->
  exists a b cl,
    fst (fst (start config context w))
    = [GotAPICaller _ _ _ (APICallerName config) (Found a);
       GotBroker _ _ _ (BrokerName config) (Found b);
       MadeClient _ _ a cl;
       MadeWorker _ {| ApplicationGetter := cl; BrokerManagedUnits := true;
                       ServiceBroker := b; ContainerBroker := b;
                       ServiceExposer := b; ContainerSpecGetter := cl;
                       LifeGetter := cl; UnitGetter := cl |} wk None].
Proof.
  unfold start. destruct (Validate config) as [e|] eqn:V; [discriminate|].
  destruct (Validate_ok _ V) as (nc & nw & -> & ->).
  destruct (Get_APICaller context _ w) as [w1 [a|e]]; [|discriminate].
  destruct (Get_Broker context _ w1) as [w2 [b|e]]; [|discriminate].
  destruct (nc a w2) as [w3 cl].
  destruct (nw _ w3) as [w4 [wk' [e|]]]; simpl; [discriminate|].
  intros E. inversion E; subst. eauto.
Qed.

(** X14. When [start] returns an error it returns no worker, not even
    one the worker constructor returned beside its error, and the error
    is the trace of the one that stopped it: the validation error, with
    nothing asked of the context and the world untouched, or the error
    of the last call made. *)
Theorem start_error_has_no_worker (config : MConfig)
    (context : Context W APICaller Broker) (w : W) (wk : option Worker)
    (err : error) :
  snd (start config context w) = Return wk (Some err) ->
  wk = None
  /\ exists e0,
       Some err = Trace (Some e0)
       /\ Cause (Some err) = Cause (Some e0)
       /\ let calls := fst (fst (start config context w)) in
          (Validate config = Some e0 /\ calls = []
           /\ snd (fst (start config context w)) = w)
          \/ (exists pre name, calls = pre ++ [GotAPICaller _ _ _ name (Failed e0)])
          \/ (exists pre name, calls = pre ++ [GotBroker _ _ _ name (Failed e0)])
          \/ (exists pre c wk', calls = pre ++ [MadeWorker _ c wk' (Some e0)]).
Proof.
  unfold start. destruct (Validate config) as [e|] eqn:V.
  - simpl. intros E. inversion E; subst. split; [reflexivity|].
    exists e. repeat split. left. auto.
  - destruct (Validate_ok _ V) as (nc & nw & -> & ->).
    destruct (Get_APICaller context _ w) as [w1 [a|e]].
    + destruct (Get_Broker context _ w1) as [w2 [b|e]].
      * destruct (nc a w2) as [w3 cl].
        destruct (nw _ w3) as [w4 [wk' [e|]]]; simpl; [|discriminate].
        intros E. inversion E; subst. split; [reflexivity|].
        exists e. repeat split. right; right; right.
        eexists [_; _; _], _, _. reflexivity.
      * simpl. intros E. inversion E; subst. split; [reflexivity|].
        exists e. repeat split. right; right; left.
        eexists [_], _. reflexivity.
    + simpl. intros E. inversion E; subst. split; [reflexivity|].
      exists e. repeat split. right; left. exists [], (APICallerName config).
      reflexivity.
Qed.

End ManifoldFacts.

(** * The broker constructors *)

Section BrokerFacts.

Import juju_errors.
Import caas.

Variables W Broker OpenParams : Type.
Variable CloudType : OpenParams -> string.
Variable Provider : string -> Got (EnvironProvider W Broker OpenParams).

(** X15. [New] returns a broker only when the registry has, under the
    type of the cloud, a container provider whose [Open] returned it;
    with the provider missing, or not one for containers, nothing is
    opened and the world is untouched: the result is no broker and the
    lookup's error traced, or an error that [errors.IsNotValid]
    recognises. *)
Theorem New_opens_container_providers_only
    (args : OpenParams) (w w' : W) (b : option Broker) (err : option error) :
  New CloudType Provider args w = (w', (b, err)) ->
  match Provider (CloudType args) with
  | Found (Container _ open) => open args w = (w', (b, err))
  | Found (NotContainer _ _ _ _) =>
      w' = w /\ b = None /\ err <> None /\ IsNotValid err = true
  | Failed e0 =>
      w' = w /\ b = None /\ err = Trace (Some e0)
      /\ Cause err = Cause (Some e0)
  end.
Proof.
  unfold New, Open.
  destruct (Provider (CloudType args)) as [[typ open|typ]|e0]; intros E.
  - exact E.
  - inversion E; subst. repeat split. discriminate.
  - inversion E; subst. repeat split.
Qed.

End BrokerFacts.

(** * The fuel of the model *)

Section LoopFuel.

Context {T : Types}.
Variable cfg : @LoopConfig T.






End LoopFuel.

(** * The further theorems at work on concrete runs *)

Lemma Loop_runs_only_decided_operations_witness :
  let t := fst (Loop (Script.config true) 3 Script.local0 Script.one_op) in
  t = firstn 8 t ++ @EvRun Script.types 7 0 None :: skipn 9 t
  /\ exists (pre' : list (@Event Script.types)) l s,
       firstn 8 t
       = pre' ++ [@EvNextOp Script.types l s 7 None; @EvGo Script.types 0;
                @EvTracef Script.types (@LogRunningOp Script.types 7)].
Proof.
  intros t.
  assert (E : t = firstn 8 t ++ @EvRun Script.types 7 0 None :: skipn 9 t)
    by (vm_compute; reflexivity).
  split; [exact E|].
  exact (@Loop_runs_only_decided_operations Script.types (Script.config true) 3
           Script.local0 Script.one_op _ _ _ _ _ E).
Defined.



Lemma Loop_idle_only_after_no_operation_witness :
  let t := fst (Loop (Script.config true) 3 Script.local0 Script.one_op) in
  t = firstn 15 t ++ @EvOnIdle Script.types None :: skipn 16 t
  /\ exists (pre' : list (@Event Script.types)) l s op e,
       firstn 15 t = pre' ++ [@EvNextOp Script.types l s op (Some e)]
       /\ Cause (Some e) = Some ErrNoOperation.
Proof.
  intros t.
  assert (E : t = firstn 15 t ++ @EvOnIdle Script.types None :: skipn 16 t)
    by (vm_compute; reflexivity).
  split; [exact E|].
  exact (@Loop_idle_only_after_no_operation Script.types (Script.config true) 3
           Script.local0 Script.one_op _ _ _ E).
Defined.


Lemma Loop_waits_only_when_resolver_has_nothing_witness :
  let t := fst (Loop (Script.config true) 3 Script.local0 Script.waiting) in
  t = firstn 6 t ++ EvSelect Script.only_abort (Some CaseAbort) :: skipn 7 t
  /\ ((exists (pre' : list (@Event Script.types)) l s op e,
          firstn 6 t = pre' ++ [@EvNextOp Script.types l s op (Some e)]
          /\ (Cause (Some e) = Some ErrWaiting
              \/ (Cause (Some e) = Some ErrNoOperation
                  /\ cfg_OnIdle (Script.config true) = None)))
      \/ (exists (pre' : list (@Event Script.types)) l s op e,
             firstn 6 t = pre' ++ [@EvNextOp Script.types l s op (Some e);
                            @EvOnIdle Script.types None]
             /\ Cause (Some e) = Some ErrNoOperation)).
Proof.
  intros t.
  assert (E : t = firstn 6 t ++ EvSelect Script.only_abort (Some CaseAbort)
                               :: skipn 7 t) by (vm_compute; reflexivity).
  split; [exact E|].
  exact (@Loop_waits_only_when_resolver_has_nothing Script.types
           (Script.config true) 3 Script.local0 Script.waiting _ _ _ _ E).
Defined.


Lemma Loop_return_reasons_witness :
  let t := fst (Loop (Script.config true) 3 Script.local0 Script.run_fails) in
  let err := Trace (Some (Other 1)) in
  snd (Loop (Script.config true) 3 Script.local0 Script.run_fails)
  = Returned err
  /\ ((exists pre st e,
          t = pre ++ [guard_event (Script.config true) st (Some e)]
          /\ err = Trace (Some e))
      \/ (exists pre op f e,
             t = pre ++ [EvRun op f (Some e); EvCloseDone f]
             /\ err = Trace (Some e))
      \/ (exists pre l s op e,
             t = pre ++ [EvNextOp l s op (Some e)] /\ err = Some e
             /\ Cause (Some e) <> Some ErrWaiting
             /\ Cause (Some e) <> Some ErrNoOperation)
      \/ (exists pre e, t = pre ++ [EvOnIdle (Some e)] /\ err = Trace (Some e))
      \/ (exists pre rd,
             t = pre ++ [EvSelect rd (Some CaseAbort)]
             /\ err = Some ErrLoopAborted)).
Proof.
  intros t err.
  assert (E : snd (Loop (Script.config true) 3 Script.local0 Script.run_fails)
              = Returned err) by (vm_compute; reflexivity).
  split; [exact E|].
  exact (@Loop_return_reasons Script.types (Script.config true) 3
           Script.local0 Script.run_fails err E).
Defined.


Lemma forwarders_are_told_to_stop_witness :
  let g := {| Forward.place := Forward.AtSelect; Forward.rs := true;
              Forward.done := true |} in
  exists s,
    Forward.run (Forward.init 0 false) Forward.scenario = Some s
    /\ nth_error (Forward.goroutines s) 0 = Some g
    /\ exists s' g',
         Forward.run s [Forward.FwdDone 0] = Some s'
         /\ nth_error (Forward.goroutines s') 0 = Some g'
         /\ Forward.place g' = Forward.Gone
         /\ Forward.main s' = Forward.main s.
Proof.
  intros g.
  destruct (Forward.run (Forward.init 0 false) Forward.scenario) as [s|] eqn:E;
    [|vm_compute in E; discriminate E].
  assert (Eg : nth_error (Forward.goroutines s) 0 = Some g).
  { vm_compute in E. inversion E; subst s. reflexivity. }
  exists s. split; [reflexivity|]. split; [exact Eg|].
  exact (proj2 (@forwarders_are_told_to_stop 0 false Forward.scenario s 0 g E Eg)
           eq_refl).
Defined.

Lemma start_wires_the_worker_witness :
  snd (caasunitprovisioner.start caasunitprovisioner.config0
         caasunitprovisioner.context0 0)
  = caasunitprovisioner.Return (Some 0) None
  /\ exists a b cl,
       fst (fst (caasunitprovisioner.start caasunitprovisioner.config0
                   caasunitprovisioner.context0 0))
       = [caasunitprovisioner.GotAPICaller _ _ _ "api-caller" (juju_errors.Found a);
          caasunitprovisioner.GotBroker _ _ _ "broker" (juju_errors.Found b);
          caasunitprovisioner.MadeClient _ _ a cl;
          caasunitprovisioner.MadeWorker _
            {| caasunitprovisioner.ApplicationGetter := cl;
               caasunitprovisioner.BrokerManagedUnits := true;
               caasunitprovisioner.ServiceBroker := b;
               caasunitprovisioner.ContainerBroker := b;
               caasunitprovisioner.ServiceExposer := b;
               caasunitprovisioner.ContainerSpecGetter := cl;
               caasunitprovisioner.LifeGetter := cl;
               caasunitprovisioner.UnitGetter := cl |} (Some 0) None].
Proof.
  assert (E : snd (caasunitprovisioner.start caasunitprovisioner.config0
                     caasunitprovisioner.context0 0)
              = caasunitprovisioner.Return (Some 0) None)
    by (vm_compute; reflexivity).
  split; [exact E|].
  exact (@start_wires_the_worker nat nat nat nat nat caasunitprovisioner.config0
           caasunitprovisioner.context0 0 (Some 0) E).
Defined.

Lemma start_error_has_no_worker_witness :
  let e := juju_errors.Err (Some (juju_errors.Root 3)) (juju_errors.Root 3) in
  let r := caasunitprovisioner.start caasunitprovisioner.config_both
             caasunitprovisioner.context0 0 in
  snd r = caasunitprovisioner.Return None (Some e)
  /\ exists pre c wk',
       fst (fst r)
       = pre ++ [caasunitprovisioner.MadeWorker _ c (Some wk')
                   (Some (juju_errors.Root 3))].
Proof.
  intros e r.
  assert (E : snd r = caasunitprovisioner.Return None (Some e))
    by (vm_compute; reflexivity).
  split; [exact E|].
  destruct (@start_error_has_no_worker nat nat nat nat nat
              caasunitprovisioner.config_both
              caasunitprovisioner.context0 0 None e E) as (_ & e0 & _ & _ & _).
  vm_compute. eexists [_; _; _], _, _. reflexivity.
Defined.

Lemma New_opens_container_providers_only_witness :
  caas.New (fun typ : string => typ) caas.registry "kubernetes" 4
  = (5, (Some 4, None))
  /\ (fun (_ : string) (w : nat) => (S w, (Some w, @None juju_errors.error)))
       "kubernetes" 4
     = (5, (Some 4, None)).
Proof.
  assert (E : caas.New (fun typ : string => typ) caas.registry "kubernetes" 4
              = (5, (Some 4, None))) by (vm_compute; reflexivity).
  split; [exact E|].
  exact (@New_opens_container_providers_only nat nat string
           (fun typ : string => typ) caas.registry "kubernetes" 4 5 (Some 4)
           None E).
Defined.
